(** * pgfe: the Data value hierarchy and the connection pool

    A shallow embedding of [src/pgfe/data.cpp] (the four storage
    strategies behind [Data], the factories [Data::make] and
    [Data::make_no_copy], and [Data_view]) and of the handle protocol
    declared in [src/pgfe/connection_pool.hpp].

    Byte buffers live in an explicit heap of blocks; a function that can
    run into undefined behaviour or trip an [assert] returns a [result].
    The polymorphic [Data] objects themselves are values: the heap holds
    payload bytes only. *)

From Stdlib Require Import NArith Strings.Byte Lia.
From stdpp Require Import base option list gmap.

Local Open Scope N_scope.

(** ** Outcomes *)

(** What running a piece of the code can end in. *)
Inductive result (A : Type) : Type :=
  | Ok (a : A)
  | Undefined_behaviour
  | Assertion_failure.
Arguments Ok {A} a.
Arguments Undefined_behaviour {A}.
Arguments Assertion_failure {A}.

#[global] Instance result_ret : MRet result := @Ok.
#[global] Instance result_bind : MBind result := λ A B f r,
  match r with
  | Ok a => f a
  | Undefined_behaviour => Undefined_behaviour
  | Assertion_failure => Assertion_failure
  end.

(** [assert(b)] of <cassert>, with assertions compiled in. *)
Definition assert (b : bool) : result unit :=
  if b then Ok tt else Assertion_failure.

(** ** Memory *)

(** One [char] of storage. [new char[n]] default-initialises, so a fresh
    buffer holds indeterminate values. *)
Inductive cell : Type :=
  | Indeterminate
  | Byte_val (b : byte).

(** Addresses. The empty string literal, which the code returns where it
    has no buffer to show, lives in static storage, apart from every heap
    block. *)
Inductive pointer : Type :=
  | nullptr
  | empty_literal
  | heap_ptr (blk : nat) (off : nat).

#[global] Instance pointer_eq_dec : EqDecision pointer.
Proof. solve_decision. Defined.

(** Conversion of a pointer to [bool]. *)
Definition to_bool (p : pointer) : bool :=
  match p with nullptr => false | _ => true end.

(** The dynamic store: live blocks by identifier. *)
Abbreviation heap := (gmap nat (list cell)).

(** [std::size_t] is 64 bits wide; sums wrap around. *)
Definition SIZE_WIDTH : N := 64.
Definition size_t_add (a b : N) : N := (a + b) mod 2 ^ SIZE_WIDTH.

(** No object is larger than [PTRDIFF_MAX] bytes. *)
Definition PTRDIFF_MAX : N := 2 ^ 63 - 1.

(** The block a pointer points into, with the offset inside it. *)
Definition block_of (h : heap) (p : pointer) : option (list cell * nat) :=
  match p with
  | nullptr => None
  | empty_literal => Some ([Byte_val x00], 0%nat)
  | heap_ptr b off => blk ← h !! b; Some (blk, off)
  end.

(** The [n] cells starting at [p], when they all lie inside one block. *)
Definition load_range (h : heap) (p : pointer) (n : N) : option (list cell) :=
  '(blk, off) ← block_of h p;
  if decide (off + N.to_nat n ≤ length blk)%nat
  then Some (take (N.to_nat n) (drop off blk))
  else None.

(** Overwrites the cells from index [i] of the buffer at [p] with [cs];
    only heap blocks are writable. *)
Definition store_range (h : heap) (p : pointer) (i : N) (cs : list cell)
    : option heap :=
  match p with
  | heap_ptr b off =>
      blk ← h !! b;
      let at_ := (off + N.to_nat i)%nat in
      if decide (at_ + length cs ≤ length blk)%nat
      then Some (<[b := take at_ blk ++ cs ++ drop (at_ + length cs) blk]> h)
      else None
  | _ => None
  end.

(** A byte span is a readable range of at most [PTRDIFF_MAX] bytes. *)
Definition readable (h : heap) (p : pointer) (n : N) : Prop :=
  n ≤ PTRDIFF_MAX ∧ is_Some (load_range h p n).

(** Code that reads and writes the heap. *)
Definition M (A : Type) : Type := heap → result (A * heap).

#[global] Instance M_ret : MRet M := λ A a h, Ok (a, h).
#[global] Instance M_bind : MBind M := λ A B f m h,
  match m h with
  | Ok (a, h') => f a h'
  | Undefined_behaviour => Undefined_behaviour
  | Assertion_failure => Assertion_failure
  end.

(** Runs heap-independent code inside [M]. *)
Definition lift {A} (r : result A) : M A := λ h,
  match r with
  | Ok a => Ok (a, h)
  | Undefined_behaviour => Undefined_behaviour
  | Assertion_failure => Assertion_failure
  end.

(** [new char[n]]: a fresh block of [n] indeterminate cells. The
    allocator never runs out of memory here ([std::bad_alloc] is left
    out); [new char[0]] also yields a fresh non-null address. *)
Definition operator_new_array (n : N) : M pointer := λ h,
  let b := fresh (dom h) in
  Ok (heap_ptr b 0, <[b := replicate (N.to_nat n) Indeterminate]> h).

(** [std::memcpy(dst, src, n)]; reading or writing out of bounds is
    undefined. *)
Definition memcpy (dst src : pointer) (n : N) : M unit := λ h,
  match load_range h src n with
  | Some cs =>
      match store_range h dst 0 cs with
      | Some h' => Ok (tt, h')
      | None => Undefined_behaviour
      end
  | None => Undefined_behaviour
  end.

(** [p[i] = c]. *)
Definition store_char (p : pointer) (i : N) (c : byte) : M unit := λ h,
  match store_range h p i [Byte_val c] with
  | Some h' => Ok (tt, h')
  | None => Undefined_behaviour
  end.

(** Position of the first NUL in [cs]; running into an indeterminate
    cell or off the end of the block is undefined. *)
Fixpoint find_nul (cs : list cell) : option nat :=
  match cs with
  | [] => None
  | Indeterminate :: _ => None
  | Byte_val b :: cs' =>
      if Byte.eqb b x00 then Some 0%nat else S <$> find_nul cs'
  end.

(** [std::strlen(p)], as the C-string constructor of [std::string_view]
    computes it. *)
Definition strlen (h : heap) (p : pointer) : result N :=
  match block_of h p with
  | Some (blk, off) =>
      match find_nul (drop off blk) with
      | Some n => Ok (N.of_nat n)
      | None => Undefined_behaviour
      end
  | None => Undefined_behaviour
  end.

(** ** Data *)

(** [Data_format] is an [enum class] over [int]: a value is its
    underlying integer, and [Format{-1}] is a value too. *)
Definition Format : Type := Z.

(** Modelled from the spec: the enumerators of [Data_format] (declared
    in data.hpp), the two wire formats, text and binary. The integers are
    the format codes of the database client library; nothing below
    depends on them. *)
Definition text : Format := 0%Z.
Definition binary : Format := 1%Z.

(** [std::string_view]: a pointer and a length, nothing owned. *)
Record string_view : Type := mk_string_view {
  sv_data : pointer;
  sv_size : N;
}.

(** [std::string]: the block of its character buffer (on the heap or
    inside the object) and its length; [data()] is never null. *)
Record std_string : Type := mk_std_string {
  string_buffer : nat;
  string_size : N;
}.

Definition string_data (s : std_string) : pointer := heap_ptr (string_buffer s) 0.
Definition string_empty (s : std_string) : bool := string_size s =? 0.

(** The two instantiations of [memory_Data]: [memory_Data<char[]>] and
    [memory_Data<void, void( * )(void* )>]. *)
Inductive memory_kind : Type :=
  | array_memory
  | custom_memory.

(** [Data_view]: a format and a borrowed span. *)
Record Data_view : Type := mk_Data_view {
  view_format_ : Format;
  view_data_ : string_view;
}.

(** The implementations of [Data], each with its members. *)
Inductive Data : Type :=
  | container_Data (format_ : Format) (storage_ : std_string)
  | memory_Data (kind : memory_kind) (format_ : Format) (size_ : N)
      (storage_ : pointer)
  | empty_Data (format_ : Format)
  | view_Data (view : Data_view).

Abbreviation string_Data := container_Data.
Abbreviation array_memory_Data := (memory_Data array_memory).
Abbreviation custom_memory_Data := (memory_Data custom_memory).

(** Modelled from the spec: the accessors of [Data_view] (defined with
    the class in data.hpp), which show the format, the length and the
    address of the borrowed span. *)
Definition Data_view_format (v : Data_view) : Format := view_format_ v.
Definition Data_view_size (v : Data_view) : N := sv_size (view_data_ v).
Definition Data_view_is_empty (v : Data_view) : bool := sv_size (view_data_ v) =? 0.
Definition Data_view_bytes (v : Data_view) : pointer := sv_data (view_data_ v).

Definition format (d : Data) : Format :=
  match d with
  | container_Data f _ => f
  | memory_Data _ f _ _ => f
  | empty_Data f => f
  | view_Data v => Data_view_format v
  end.

Definition size (d : Data) : N :=
  match d with
  | container_Data _ s => string_size s
  | memory_Data _ _ n _ => n
  | empty_Data _ => 0
  | view_Data v => Data_view_size v
  end.

Definition is_empty (d : Data) : bool :=
  match d with
  | container_Data _ s => string_empty s
  | memory_Data _ _ n _ => n =? 0
  | empty_Data _ => true
  | view_Data v => Data_view_is_empty v
  end.

Definition bytes (d : Data) : pointer :=
  match d with
  | container_Data _ s => string_data s
  | memory_Data _ _ _ p => if to_bool p then p else empty_literal
  | empty_Data _ => empty_literal
  | view_Data v => Data_view_bytes v
  end.

(** [Data::is_invariant_ok]. *)
Definition is_invariant_ok (d : Data) : bool :=
  let size_ok := Bool.eqb (size d =? 0) (is_empty d) in
  let empty_ok := negb (is_empty d) || ((size d =? 0) && to_bool (bytes d)) in
  size_ok && empty_ok.

(** The constructors; each one ends in [assert(is_invariant_ok())]. *)
Definition container_Data_ctor (storage : std_string) (f : Format) : result Data :=
  let d := container_Data f storage in
  _ ← assert (is_invariant_ok d); Ok d.

Definition memory_Data_ctor (k : memory_kind) (storage : pointer) (n : N)
    (f : Format) : result Data :=
  let d := memory_Data k f n storage in
  _ ← assert (is_invariant_ok d); Ok d.

Definition empty_Data_ctor (f : Format) : result Data :=
  let d := empty_Data f in
  _ ← assert (is_invariant_ok d); Ok d.

(** Modelled from the spec: the default member initialisers of
    [Data_view] (in data.hpp): the format starts at the invalid sentinel,
    the one the move constructor writes back as [Format{-1}], and the
    span is the zero-length one over the static terminator, non-null as
    the invariant of every Data asks. *)
Definition invalid_format : Format := (-1)%Z.
Definition Data_view_default : Data_view :=
  {| view_format_ := invalid_format;
     view_data_ := {| sv_data := empty_literal; sv_size := 0 |} |}.

(** [Data_view::Data_view(const char* bytes)], up to its assertion: the
    members as the body leaves them. Assigning the C string to [data_]
    measures it. *)
Definition Data_view_of_c_str_init (h : heap) (bytes_ : pointer)
    : result Data_view :=
  if to_bool bytes_
  then n ← strlen h bytes_;
       Ok {| view_format_ := text;
             view_data_ := {| sv_data := bytes_; sv_size := n |} |}
  else Ok Data_view_default.

Definition Data_view_of_c_str (h : heap) (bytes_ : pointer) : result Data_view :=
  v ← Data_view_of_c_str_init h bytes_;
  _ ← assert (is_invariant_ok (view_Data v)); Ok v.

(** [Data_view::Data_view(const char* bytes, std::size_t size, Format format)],
    up to its assertion. *)
Definition Data_view_init (bytes_ : pointer) (size_ : N) (f : Format)
    : Data_view :=
  if to_bool bytes_
  then {| view_format_ := f;
          view_data_ := {| sv_data := bytes_; sv_size := size_ |} |}
  else Data_view_default.

Definition Data_view_ctor (bytes_ : pointer) (size_ : N) (f : Format)
    : result Data_view :=
  let v := Data_view_init bytes_ size_ f in
  _ ← assert (is_invariant_ok (view_Data v)); Ok v.

(** [Data_view::Data_view(const Data& data)]. *)
Definition Data_view_of_Data (d : Data) : result Data_view :=
  Data_view_ctor (bytes d) (size d) (format d).

(** [Data_view::Data_view(Data_view&& rhs)]: the constructed view and
    [rhs] afterwards. Moving a [std::string_view] copies it. *)
Definition Data_view_move_ctor (rhs : Data_view) : Data_view * Data_view :=
  let this := {| view_format_ := view_format_ rhs; view_data_ := view_data_ rhs |} in
  (this, {| view_format_ := invalid_format; view_data_ := view_data_ rhs |}).

(** [Data_view::swap]: [*this] and [rhs] afterwards. *)
Definition Data_view_swap (this rhs : Data_view) : Data_view * Data_view :=
  ({| view_format_ := view_format_ rhs; view_data_ := view_data_ rhs |},
   {| view_format_ := view_format_ this; view_data_ := view_data_ this |}).

(** [Data_view::operator=(Data_view&& rhs)] on the views that live at
    addresses [this] and [rhs] of [σ]; the temporary dies at the end of
    the block. *)
Definition Data_view_move_assign (σ : gmap nat Data_view) (this rhs : nat)
    : option (gmap nat Data_view) :=
  if decide (this ≠ rhs) then
    r ← σ !! rhs;
    let '(tmp, r') := Data_view_move_ctor r in
    let σ1 := <[rhs := r']> σ in
    t ← σ1 !! this;
    let '(t', _) := Data_view_swap t tmp in
    Some (<[this := t']> σ1)
  else
    _ ← σ !! this; Some σ.

(** ** The factories *)

(** [Data::make(std::string&& storage, Data_format format)]. *)
Definition make_string (storage : std_string) (f : Format) : result Data :=
  container_Data_ctor storage f.

(** [Data::make(std::unique_ptr<void, void( * )(void* )>&& storage, size, format)]. *)
Definition make_custom (storage : pointer) (n : N) (f : Format) : result Data :=
  _ ← assert (to_bool storage);
  memory_Data_ctor custom_memory storage n f.

(** [Data::make(std::string_view bytes, Data_format format)]. *)
Definition make (bytes_ : string_view) (f : Format) : M Data :=
  if 0 <? sv_size bytes_ then
    storage ← operator_new_array (size_t_add (sv_size bytes_) 1);
    _ ← memcpy storage (sv_data bytes_) (sv_size bytes_);
    _ ← store_char storage (sv_size bytes_) x00;
    lift (memory_Data_ctor array_memory storage (sv_size bytes_) f)
  else
    lift (empty_Data_ctor f).

(** [Data::make_no_copy]. *)
Definition make_no_copy (bytes_ : string_view) (f : Format) : result Data :=
  if 0 <? sv_size bytes_ then
    v ← Data_view_ctor (sv_data bytes_) (sv_size bytes_) f; Ok (view_Data v)
  else
    empty_Data_ctor f.

(** The copy constructor of [std::string]: a new buffer with the
    characters and their terminator. *)
Definition string_copy (s : std_string) : M std_string := λ h,
  match load_range h (string_data s) (string_size s + 1) with
  | Some cs =>
      let b := fresh (dom h) in
      Ok ({| string_buffer := b; string_size := string_size s |}, <[b := cs]> h)
  | None => Undefined_behaviour
  end.

(** [Data_view::to_data]. *)
Definition Data_view_to_data (v : Data_view) : M Data :=
  let sz := sv_size (view_data_ v) in
  storage ← operator_new_array sz;
  _ ← memcpy storage (sv_data (view_data_ v)) sz;
  lift (memory_Data_ctor array_memory storage sz (view_format_ v)).

(** [to_data] ([deep_copy]) of each implementation. *)
Definition to_data (d : Data) : M Data :=
  match d with
  | container_Data f s =>
      s' ← string_copy s; lift (container_Data_ctor s' f)
  | memory_Data _ f n p =>
      make {| sv_data := p; sv_size := n |} f
  | empty_Data f => lift (empty_Data_ctor f)
  | view_Data v => Data_view_to_data v
  end.

(** ** Instances *)

(** The [Data] objects a program can hold: what the constructors build
    (their assertions left aside, as in a release build) and what the
    move operations and [swap] of [Data_view] leave behind. *)
Inductive Data_instance : Data → Prop :=
  | instance_container f s : Data_instance (container_Data f s)
  | instance_memory k f n p : Data_instance (memory_Data k f n p)
  | instance_empty f : Data_instance (empty_Data f)
  | instance_view_default : Data_instance (view_Data Data_view_default)
  | instance_view_c_str h p v :
      Data_view_of_c_str_init h p = Ok v → Data_instance (view_Data v)
  | instance_view_ctor p n f : Data_instance (view_Data (Data_view_init p n f))
  | instance_view_of_Data d :
      Data_instance d →
      Data_instance (view_Data (Data_view_init (bytes d) (size d) (format d)))
  | instance_view_moved_to v :
      Data_instance (view_Data v) →
      Data_instance (view_Data (Data_view_move_ctor v).1)
  | instance_view_moved_from v :
      Data_instance (view_Data v) →
      Data_instance (view_Data (Data_view_move_ctor v).2)
  | instance_view_swapped_this v w :
      Data_instance (view_Data v) → Data_instance (view_Data w) →
      Data_instance (view_Data (Data_view_swap v w).1)
  | instance_view_swapped_rhs v w :
      Data_instance (view_Data v) → Data_instance (view_Data w) →
      Data_instance (view_Data (Data_view_swap v w).2)
  | instance_view_move_assigned (σ σ' : gmap nat Data_view) this rhs a v :
      (∀ a' v', σ !! a' = Some v' → Data_instance (view_Data v')) →
      Data_view_move_assign σ this rhs = Some σ' →
      σ' !! a = Some v →
      Data_instance (view_Data v).

(** A byte span handed to a factory: empty, or a readable range. *)
Definition valid_span (h : heap) (s : string_view) : Prop :=
  sv_size s = 0 ∨ readable h (sv_data s) (sv_size s).

(** [d'] is a deep copy of [d] in [h]: same format, same size, the same
    bytes, in another block. *)
Definition deep_copy_of (h : heap) (d d' : Data) : Prop :=
  format d' = format d ∧ size d' = size d ∧
  (∃ cs, load_range h (bytes d) (size d) = Some cs ∧
         load_range h (bytes d') (size d') = Some cs) ∧
  bytes d' ≠ bytes d ∧
  (∃ b b', bytes d = heap_ptr b 0 ∧ bytes d' = heap_ptr b' 0 ∧ b ≠ b').

(** ** The connection pool *)

Section Connection_pool_model.
(** The session object, an external collaborator. *)
Context {Connection : Type}.

(** The members of [Connection_pool::Handle]: the pool it came from (an
    address, null when absent), the owned connection (a
    [std::unique_ptr], empty when absent) and the slot index. *)
Record Handle : Type := mk_Handle {
  pool_ : option nat;
  connection_ : option Connection;
  connection_index_ : nat;
}.

(** How a call of a handler ends: it returns, or an exception leaves
    it; either way the connection is left in some state. *)
Inductive handler_result : Type :=
  | Handler_returned (c : Connection)
  | Handler_threw (c : Connection).

(** The members of [Connection_pool]. The mutex is left out: a member
    function runs as one step. A handler is a [std::function] that may
    be empty. *)
Record Connection_pool : Type := mk_Connection_pool {
  is_connected_ : bool;
  connections_ : list (option Connection * bool);
  connect_handler_ : option (Connection → handler_result);
  release_handler_ : option (Connection → handler_result);
}.

(** [Handle::Handle()], from the default member initialisers. *)
Definition Handle_default : Handle :=
  {| pool_ := None; connection_ := None; connection_index_ := 0 |}.

(** [Handle::Handle(pool, connection, connection_index)]. *)
Definition Handle_ctor (pool : nat) (connection : option Connection)
    (connection_index : nat) : Handle :=
  {| pool_ := Some pool; connection_ := connection;
     connection_index_ := connection_index |}.

(** [Handle(Handle&& rhs) = default], member by member: the raw pool
    pointer and the index are copied, the [unique_ptr] is moved out of
    [rhs]. Gives the constructed handle and [rhs] afterwards. *)
Definition Handle_move_ctor (rhs : Handle) : Handle * Handle :=
  ({| pool_ := pool_ rhs; connection_ := connection_ rhs;
      connection_index_ := connection_index_ rhs |},
   {| pool_ := pool_ rhs; connection_ := None;
      connection_index_ := connection_index_ rhs |}).

Definition set_pool_ (x : option nat) (h : Handle) : Handle :=
  {| pool_ := x; connection_ := connection_ h;
     connection_index_ := connection_index_ h |}.
Definition set_connection_ (x : option Connection) (h : Handle) : Handle :=
  {| pool_ := pool_ h; connection_ := x;
     connection_index_ := connection_index_ h |}.
Definition set_connection_index_ (x : nat) (h : Handle) : Handle :=
  {| pool_ := pool_ h; connection_ := connection_ h;
     connection_index_ := x |}.

(** [Handle& operator=(Handle&& rhs) = default] on the handles at
    addresses [this] and [rhs] of [σ], member by member. Move
    assignment of the [unique_ptr] is [reset(rhs.release())]: the source
    is emptied first, and what the target owned is destroyed. *)
Definition Handle_move_assign (σ : gmap nat Handle) (this rhs : nat)
    : option (gmap nat Handle) :=
  r ← σ !! rhs;
  let σ1 := alter (set_pool_ (pool_ r)) this σ in
  r1 ← σ1 !! rhs;
  let released := connection_ r1 in
  let σ2 := alter (set_connection_ None) rhs σ1 in
  let σ3 := alter (set_connection_ released) this σ2 in
  r3 ← σ3 !! rhs;
  _ ← σ3 !! this;
  Some (alter (set_connection_index_ (connection_index_ r3)) this σ3).

(** Modelled from the spec: [Handle::is_valid] (defined in
    connection_pool.cpp): a handle is valid exactly when both the pool
    reference and the connection are present. *)
Definition Handle_is_valid (h : Handle) : bool :=
  bool_decide (is_Some (pool_ h)) && bool_decide (is_Some (connection_ h)).

(** Modelled from the spec: [Handle::pool] (defined in
    connection_pool.cpp) exposes the pool reference. *)
Definition Handle_pool (h : Handle) : option nat := pool_ h.

(** Modelled from the spec: [Connection_pool::is_connected] and
    [Connection_pool::size] (defined in connection_pool.cpp). *)
Definition is_connected (p : Connection_pool) : bool := is_connected_ p.
Definition pool_size (p : Connection_pool) : nat := length (connections_ p).

Definition set_connections_ (cs : list (option Connection * bool))
    (p : Connection_pool) : Connection_pool :=
  {| is_connected_ := is_connected_ p; connections_ := cs;
     connect_handler_ := connect_handler_ p;
     release_handler_ := release_handler_ p |}.

(** Modelled from the spec: [Connection_pool::connection] (defined in
    connection_pool.cpp), called on the pool at address [this]. If the
    pool is not connected, or no slot is free, the result is an invalid
    handle; otherwise the first free slot is marked busy and its
    connection is moved out into a new handle bound to the slot index. *)
Definition connection (this : nat) (p : Connection_pool)
    : Handle * Connection_pool :=
  if is_connected p then
    match list_find (λ slot, slot.2 = false) (connections_ p) with
    | Some (i, (c, _)) =>
        (Handle_ctor this c i,
         set_connections_ (<[i := (None, true)]> (connections_ p)) p)
    | None => (Handle_default, p)
    end
  else (Handle_default, p).

(** A handle with its pool reference and its connection cleared. *)
Definition cleared (h : Handle) : Handle :=
  set_pool_ None (set_connection_ None h).

(** Calls a handler, when there is one. *)
Definition run_handler (f : option (Connection → handler_result))
    (c : Connection) : handler_result :=
  match f with Some g => g c | None => Handler_returned c end.

(** [release] is declared [noexcept], and an error of the handler is
    swallowed: the connection goes on in the state the handler left. *)
Definition swallow (r : handler_result) : Connection :=
  match r with Handler_returned c | Handler_threw c => c end.

(** Modelled from the spec: [Connection_pool::release] (defined in
    connection_pool.cpp), with the effects that connection_pool.hpp
    documents for it. On a handle that is already invalid nothing is
    returned and no slot is touched. If the pool is connected, the
    release handler runs on the connection, which is moved back into its
    originating slot, and the slot is marked free; if not, the connection
    is destroyed instead of being returned, and the slot, no handle being
    out for it any more, is free. Afterwards the handle has neither pool
    nor connection, as the header says without condition. *)
Definition release (p : Connection_pool) (h : Handle)
    : Connection_pool * Handle :=
  if Handle_is_valid h then
    if is_connected p then
      let c := swallow ∘ run_handler (release_handler_ p) <$> connection_ h in
      (set_connections_
         (<[connection_index_ h := (c, false)]> (connections_ p)) p,
       cleared h)
    else
      (set_connections_
         (alter (λ slot, (slot.1, false)) (connection_index_ h)
            (connections_ p)) p,
       cleared h)
  else (p, cleared h).

(** Modelled from the spec: [Handle::release] (defined in
    connection_pool.cpp) hands the handle to the pool it refers to,
    here [p]; without a pool there is nothing to call. *)
Definition Handle_release (p : Connection_pool) (h : Handle)
    : Connection_pool * Handle :=
  match pool_ h with
  | Some _ => release p h
  | None => (p, h)
  end.

(** Every free slot holds its connection. *)
Definition slots_ok (p : Connection_pool) : Prop :=
  ∀ i c, connections_ p !! i = Some (c, false) → is_Some c.
End Connection_pool_model.

Arguments Handle : clear implicits.
Arguments handler_result : clear implicits.
Arguments Connection_pool : clear implicits.

(** ** Sample inputs *)

(** A heap with one block holding the C string abc, and the span over
    its second and third characters. *)
Definition sample_heap : heap :=
  {[ 0%nat := [Byte_val x61; Byte_val x62; Byte_val x63; Byte_val x00] ]}.
Definition sample_span : string_view :=
  {| sv_data := heap_ptr 0 1; sv_size := 2 |}.
Definition sample_view : Data_view :=
  {| view_format_ := binary; view_data_ := sample_span |}.

(** Two views side by side: a default-constructed one at address 1 and
    [sample_view] at address 2. *)
Definition sample_views : gmap nat Data_view :=
  {[ 1%nat := Data_view_default; 2%nat := sample_view ]}.

(** A connected pool at address 100 whose connections are numbers and
    whose release handler adds one: slot 0 is checked out, slots 1 and 2
    are free. A handle for slot 1 of it, and two handles side by side. *)
Definition sample_pool : Connection_pool nat :=
  {| is_connected_ := true;
     connections_ := [(None, true); (Some 7%nat, false); (Some 9%nat, false)];
     connect_handler_ := None;
     release_handler_ := Some (λ c, Handler_returned (S c)) |}.
Definition sample_handle : Handle nat := Handle_ctor 100 (Some 7%nat) 1.
Definition sample_handles : gmap nat (Handle nat) :=
  {[ 1%nat := Handle_default; 2%nat := sample_handle ]}.

(** ** Reading a Data *)

(** What [to_data] needs to find in memory: the characters and the
    terminator of a string, the bytes of a non-empty owned buffer, the
    bytes a view borrows. *)
Definition Data_readable (h : heap) (d : Data) : Prop :=
  match d with
  | container_Data _ s =>
      is_Some (load_range h (string_data s) (string_size s + 1))
  | memory_Data _ _ n p => valid_span h {| sv_data := p; sv_size := n |}
  | empty_Data _ => True
  | view_Data v => readable h (Data_view_bytes v) (Data_view_size v)
  end.

(** The bytes a [Data] shows: the [size()] cells at [bytes()]. *)
Definition contents (h : heap) (d : Data) : list cell :=
  default [] (load_range h (bytes d) (size d)).

(** [p[i]] as an rvalue; an indeterminate value, or a cell outside the
    block, makes the read undefined. *)
Definition load_char (h : heap) (p : pointer) (i : N) : result byte :=
  match block_of h p with
  | Some (blk, off) =>
      match blk !! (off + N.to_nat i)%nat with
      | Some (Byte_val b) => Ok b
      | _ => Undefined_behaviour
      end
  | None => Undefined_behaviour
  end.

(** ** to_bytea *)

(** How a function that may throw [std::bad_alloc] ends. *)
Inductive or_bad_alloc (A : Type) : Type :=
  | Returned (a : A)
  | Thrown_bad_alloc.
Arguments Returned {A} a.
Arguments Thrown_bad_alloc {A}.

Section to_bytea_model.
(** [PQunescapeBytea(from, &to_length)] of the client library: the
    buffer it returns (null when it has none), the length it stores, and
    the heap it leaves. *)
Variable PQunescapeBytea : heap → pointer → pointer * N * heap.

(** The call of the library, as code on the heap. *)
Definition unescape (from : pointer) : M (pointer * N) := λ h,
  let '(to, to_length, h') := PQunescapeBytea h from in Ok ((to, to_length), h').

(** [to_bytea__]. *)
Definition to_bytea__ (text_ : pointer) : M (or_bad_alloc Data) :=
  _ ← lift (assert (to_bool text_));
  '(storage, storage_size) ← unescape text_;
  if to_bool storage
  then d ← lift (make_custom storage storage_size binary); mret (Returned d)
  else mret Thrown_bad_alloc.

(** The assertion that opens [Data::to_bytea() const]; [&&] reads the
    character only when the format is text. *)
Definition to_bytea_assertion (d : Data) : M unit := λ h,
  lift (if (format d =? text)%Z
        then c ← load_char h (bytes d) (size d); assert (Byte.eqb c x00)
        else assert false) h.

(** [Data::to_bytea() const]. *)
Definition Data_to_bytea (d : Data) : M (or_bad_alloc Data) :=
  _ ← to_bytea_assertion d;
  to_bytea__ (bytes d).

(** [Data::to_bytea(const char* text_data)]. *)
Definition to_bytea (text_data : pointer) : M (or_bad_alloc Data) :=
  _ ← lift (assert (to_bool text_data));
  to_bytea__ text_data.
End to_bytea_model.

(** A stand-in for the library's unescape primitive, for running
    [to_bytea]: it returns a fresh one-byte buffer. *)
Definition sample_unescape (h : heap) (from : pointer) : pointer * N * heap :=
  let b := fresh (dom h) in (heap_ptr b 0, 1, <[b := [Byte_val x2a]]> h).

(** [d] is followed by a terminator: [bytes()[size()]] is NUL. *)
Definition terminated (h : heap) (d : Data) : Prop :=
  load_char h (bytes d) (size d) = Ok x00.

(** A string with its characters and its terminator in block 3. *)
Definition sample_string_heap : heap :=
  {[ 3%nat := [Byte_val x68; Byte_val x69; Byte_val x00] ]}.
Definition sample_string : std_string :=
  {| string_buffer := 3; string_size := 2 |}.

(** ** String transformations (str/transform.hpp) *)

(** Here a [std::string] or a [std::string_view] is the list of its
    characters. *)

#[global] Instance byte_eq_decision : EqDecision byte := Byte.byte_eq_dec.

(** The loop of [sparsed_string] and what follows it: every character
    up to the last but one is appended with the delimiter after it, then
    the last one alone. *)
Fixpoint sparsed_string_loop (delimiter input result_ : list byte) : list byte :=
  match input with
  | [] => result_
  | [c] => result_ ++ [c]
  | c :: rest => sparsed_string_loop delimiter rest ((result_ ++ [c]) ++ delimiter)
  end.

(** [sparsed_string]. *)
Definition sparsed_string (input delimiter : list byte) : list byte :=
  if bool_decide (input = []) then []
  else sparsed_string_loop delimiter input [].

(** [terminate]: the string afterwards. *)
Definition terminate (str : list byte) (c : byte) : list byte :=
  if bool_decide (str = []) || negb (bool_decide (last str = Some c))
  then str ++ [c]
  else str.

(** [std::find_if] as the position it stops at: that of the first
    element that satisfies [P], or the length when there is none. *)
Fixpoint find_if {A} (P : A → bool) (l : list A) : nat :=
  match l with
  | [] => 0
  | x :: l' => if P x then 0 else S (find_if P l')
  end.

(** The loop of [std::move(first, last, d_first)] inside one string:
    [n] characters from position [first] on are assigned, one after the
    other, to the positions from [d_first] on. *)
Fixpoint move_loop (n first d_first : nat) (s : list byte) : list byte :=
  match n with
  | O => s
  | S n' =>
      match s !! first with
      | Some x => move_loop n' (S first) (S d_first) (<[d_first := x]> s)
      | None => s
      end
  end.

(** [std::string::resize(n)]. *)
Definition resize (n : nat) (s : list byte) : list byte :=
  take n s ++ replicate (n - length s) x00.

Section trim_model.
(** [isspace(c, loc)] of the locale in use. *)
Variable isspace : byte → bool.

(** [trim]: the string afterwards. *)
Definition trim (str : list byte) : list byte :=
  if bool_decide (str = []) then str
  else
    let is_not_space := λ c, negb (isspace c) in
    let tb := find_if is_not_space str in
    if bool_decide (tb = length str) then []
    else
      let te := (length str - find_if is_not_space (reverse str))%nat in
      resize (te - tb) (move_loop (te - tb) tb 0 str).
End trim_model.

(** [std::string_view::npos]. *)
Definition npos : N := 2 ^ SIZE_WIDTH - 1.

(** Subtraction in [std::size_t]. *)
Definition size_t_sub (a b : N) : N := (2 ^ SIZE_WIDTH + a - b) mod 2 ^ SIZE_WIDTH.

(** [find_first_of], looking at the characters [l] that start at
    position [i]. *)
Fixpoint find_first_of_from (separators l : list byte) (i : N) : N :=
  match l with
  | [] => npos
  | c :: l' =>
      if bool_decide (c ∈ separators) then i
      else find_first_of_from separators l' (i + 1)
  end.

(** [input.find_first_of(separators, pos)]. *)
Definition find_first_of (input separators : list byte) (pos : N) : N :=
  find_first_of_from separators (drop (N.to_nat pos) input) pos.

(** [input.substr(pos, count)], for [pos] inside the string. *)
Definition substr (input : list byte) (pos count : N) : list byte :=
  take (N.to_nat count) (drop (N.to_nat pos) input).

(** The loop of [split] and what follows it, run for at most [fuel]
    rounds ([None] when they do not suffice). [DMITIGR_ASSERT]
    (base/assert.hpp) is taken to stop the function when its condition
    fails. *)
Fixpoint split_loop (fuel : nat) (input separators : list byte)
    (pos offset : N) (result_ : list (list byte))
    : option (result (list (list byte))) :=
  let size_ := N.of_nat (length input) in
  if offset <? size_ then
    match fuel with
    | O => None
    | S fuel' =>
        let pos := find_first_of input separators offset in
        if offset <=? pos then
          let part_size := size_t_sub (N.min pos size_) offset in
          let result_ := result_ ++ [substr input offset part_size] in
          split_loop fuel' input separators pos
            (size_t_add offset (size_t_add part_size 1)) result_
        else Some Assertion_failure
    end
  else Some (Ok (if pos =? npos then result_ else result_ ++ [[]])).

(** [split]; every round moves [offset] forward, so as many rounds as
    the input has characters are enough. *)
Definition split (input separators : list byte)
    : option (result (list (list byte))) :=
  split_loop (length input) input separators npos 0 [].

(** What [sparsed_string] is meant to build: the characters with the
    delimiter between them. *)
Fixpoint interspersed (delimiter input : list byte) : list byte :=
  match input with
  | [] => []
  | [c] => [c]
  | c :: rest => c :: delimiter ++ interspersed delimiter rest
  end.

(** What [split] is meant to build on a non-empty input: the fields
    between the separators. *)
Fixpoint fields (separators input : list byte) : list (list byte) :=
  match input with
  | [] => [[]]
  | c :: rest =>
      if bool_decide (c ∈ separators) then [] :: fields separators rest
      else match fields separators rest with
           | p :: ps => (c :: p) :: ps
           | [] => [[c]]
           end
  end.

(** The parts with [sep] between them. *)
Fixpoint join (sep : byte) (parts : list (list byte)) : list byte :=
  match parts with
  | [] => []
  | [p] => p
  | p :: ps => p ++ sep :: join sep ps
  end.

(** Sample strings: a line with two commas, the second at its end, and
    a padded word; blanks are the spaces of the sample locale. *)
Definition sample_line : list byte := [x61; x2c; x62; x63; x2c].
Definition sample_padded : list byte := [x20; x20; x68; x20; x69; x20].
Definition sample_isspace (c : byte) : bool := Byte.eqb c x20.


(** * Properties *)

(** ** Memory *)

Lemma fresh_block_None (h : heap) : h !! fresh (dom h) = None.
Proof. apply not_elem_of_dom, is_fresh. Qed.

Lemma size_t_add_no_wrap (n : N) : n ≤ PTRDIFF_MAX → size_t_add n 1 = n + 1.
Proof.
  intros Hn. unfold size_t_add. apply N.mod_small.
  unfold PTRDIFF_MAX, SIZE_WIDTH in *. lia.
Qed.

Lemma load_range_length (h : heap) p n cs :
  load_range h p n = Some cs → length cs = N.to_nat n.
Proof.
  unfold load_range. destruct (block_of h p) as [[blk off]|]; simpl; [|done].
  case_decide; [|done]. intros [= <-].
  rewrite length_take, length_drop. lia.
Qed.

Lemma block_of_insert_None (h : heap) b x p :
  h !! b = None → is_Some (block_of h p) →
  block_of (<[b := x]> h) p = block_of h p.
Proof.
  intros Hb [r Hr]. destruct p as [| |b' off]; simpl in *; try done.
  destruct (decide (b = b')) as [->|Hne].
  - rewrite Hb in Hr. done.
  - by rewrite lookup_insert_ne.
Qed.

Lemma load_range_insert_None (h : heap) b x p n :
  h !! b = None → is_Some (load_range h p n) →
  load_range (<[b := x]> h) p n = load_range h p n.
Proof.
  intros Hb [cs Hcs]. unfold load_range in *.
  rewrite block_of_insert_None; [done|done|].
  destruct (block_of h p); [eauto|done].
Qed.

Lemma load_range_block (h : heap) b blk n :
  h !! b = Some blk → (N.to_nat n ≤ length blk)%nat →
  load_range h (heap_ptr b 0) n = Some (take (N.to_nat n) blk).
Proof.
  intros Hb Hn. unfold load_range. simpl. rewrite Hb. simpl.
  rewrite decide_True by lia. done.
Qed.

Lemma load_range_nonnull (h : heap) p n cs :
  load_range h p n = Some cs → p ≠ nullptr.
Proof. by intros H ->. Qed.

Lemma memory_Data_ctor_Ok k p n f :
  memory_Data_ctor k p n f = Ok (memory_Data k f n p).
Proof.
  unfold memory_Data_ctor, is_invariant_ok. simpl.
  destruct (n =? 0) eqn:E; simpl; [|done].
  by destruct p.
Qed.

Lemma empty_Data_ctor_Ok f : empty_Data_ctor f = Ok (empty_Data f).
Proof. done. Qed.

Lemma container_Data_ctor_Ok s f :
  container_Data_ctor s f = Ok (container_Data f s).
Proof.
  unfold container_Data_ctor, is_invariant_ok. simpl.
  unfold string_empty. by destruct (string_size s =? 0).
Qed.

(** The one computation behind [make] on a non-empty span. *)
Lemma make_nonempty (h : heap) (s : string_view) (f : Format) (cs : list cell) :
  0 < sv_size s → sv_size s ≤ PTRDIFF_MAX →
  load_range h (sv_data s) (sv_size s) = Some cs →
  make s f h =
    Ok (array_memory_Data f (sv_size s) (heap_ptr (fresh (dom h)) 0),
        <[fresh (dom h) := cs ++ [Byte_val x00]]> h).
Proof.
  intros Hpos Hmax Hload.
  pose proof (load_range_length _ _ _ _ Hload) as Hlen.
  pose proof (fresh_block_None h) as Hfresh.
  unfold make. apply N.ltb_lt in Hpos as ->.
  rewrite size_t_add_no_wrap by done.
  unfold mbind, M_bind, operator_new_array, memcpy.
  rewrite load_range_insert_None by eauto. rewrite Hload.
  unfold store_range. rewrite lookup_insert_eq. simpl.
  rewrite length_replicate, decide_True by lia.
  unfold store_char, store_range. rewrite lookup_insert_eq. simpl.
  rewrite length_app, length_drop, length_replicate, decide_True by (simpl; lia).
  rewrite !insert_insert_eq.
  unfold lift. rewrite memory_Data_ctor_Ok.
  do 3 f_equal.
  rewrite Hlen. rewrite take_app_length' by done.
  f_equal. simpl. rewrite drop_ge; [done|].
  rewrite length_app, length_drop, length_replicate. simpl. lia.
Qed.

(** ** The factories *)

(** C5. [make] on a readable non-empty span allocates a fresh block of
    [size + 1] cells, holding the bytes of the span followed by a NUL, and
    returns an array [memory_Data] of the given format and of the size of
    the span; on an empty span it returns an [empty_Data] of the given
    format and leaves the heap as it was. *)
Theorem make_copies_and_terminates (h : heap) (s : string_view) (f : Format) :
  valid_span h s →
  (sv_size s = 0 → make s f h = Ok (empty_Data f, h)) ∧
  (0 < sv_size s →
   ∃ b cs,
     h !! b = None ∧
     load_range h (sv_data s) (sv_size s) = Some cs ∧
     length (cs ++ [Byte_val x00]) = N.to_nat (sv_size s + 1) ∧
     make s f h =
       Ok (array_memory_Data f (sv_size s) (heap_ptr b 0),
           <[b := cs ++ [Byte_val x00]]> h)).
Proof.
  intros Hvalid. split.
  - intros Hz. unfold make. by rewrite Hz.
  - intros Hpos. destruct Hvalid as [Hz|[Hmax [cs Hcs]]]; [lia|].
    exists (fresh (dom h)), cs. split_and!.
    + apply fresh_block_None.
    + done.
    + rewrite length_app, (load_range_length _ _ _ _ Hcs). simpl. lia.
    + by apply make_nonempty.
Qed.

Lemma make_copies_and_terminates_witness :
  valid_span sample_heap sample_span ∧
  (0 < sv_size sample_span →
   ∃ b cs,
     sample_heap !! b = None ∧
     load_range sample_heap (sv_data sample_span) (sv_size sample_span) = Some cs ∧
     length (cs ++ [Byte_val x00]) = N.to_nat (sv_size sample_span + 1) ∧
     make sample_span text sample_heap =
       Ok (array_memory_Data text (sv_size sample_span) (heap_ptr b 0),
           <[b := cs ++ [Byte_val x00]]> sample_heap)).
Proof.
  assert (H : valid_span sample_heap sample_span).
  { right. split; [by vm_compute | by eexists]. }
  split; [exact H|].
  exact (proj2 (make_copies_and_terminates sample_heap sample_span text H)).
Defined.

(** C4. [make] on a readable non-empty span, then [to_data] on what it
    returned: both succeed, and the second [Data] is a deep copy of the
    first, with the same format, the same size and the same bytes (those
    of the span), stored in another block at another address. *)
Theorem make_then_to_data_deep_copy (h : heap) (s : string_view) (f : Format) :
  0 < sv_size s →
  readable h (sv_data s) (sv_size s) →
  ∃ d h1 d' h2,
    make s f h = Ok (d, h1) ∧
    to_data d h1 = Ok (d', h2) ∧
    size d = sv_size s ∧ format d = f ∧
    load_range h2 (bytes d) (size d) = load_range h (sv_data s) (sv_size s) ∧
    deep_copy_of h2 d d'.
Proof.
  intros Hpos [Hmax [cs Hcs]].
  pose proof (load_range_length _ _ _ _ Hcs) as Hlen.
  set (b := fresh (dom h)).
  set (h1 := <[b := cs ++ [Byte_val x00]]> h).
  set (b' := fresh (dom h1)).
  set (h2 := <[b' := cs ++ [Byte_val x00]]> h1).
  assert (Hb1 : h1 !! b = Some (cs ++ [Byte_val x00])) by apply lookup_insert_eq.
  assert (Hne : b ≠ b').
  { intros Heq. pose proof (fresh_block_None h1) as Hn.
    fold b' in Hn. rewrite <- Heq, Hb1 in Hn. done. }
  assert (Hload1 : load_range h1 (heap_ptr b 0) (sv_size s) = Some cs).
  { rewrite (load_range_block _ _ _ _ Hb1) by (rewrite length_app; lia).
    by rewrite <- Hlen, take_app_length. }
  assert (Hb2 : h2 !! b = Some (cs ++ [Byte_val x00])).
  { unfold h2. by rewrite lookup_insert_ne. }
  assert (Hb2' : h2 !! b' = Some (cs ++ [Byte_val x00])) by apply lookup_insert_eq.
  assert (Hload2 : ∀ x, h2 !! x = Some (cs ++ [Byte_val x00]) →
            load_range h2 (heap_ptr x 0) (sv_size s) = Some cs).
  { intros x Hx. rewrite (load_range_block _ _ _ _ Hx) by (rewrite length_app; lia).
    by rewrite <- Hlen, take_app_length. }
  exists (array_memory_Data f (sv_size s) (heap_ptr b 0)), h1,
         (array_memory_Data f (sv_size s) (heap_ptr b' 0)), h2.
  split_and!.
  - by apply make_nonempty.
  - simpl. by apply (make_nonempty h1 (mk_string_view (heap_ptr b 0) (sv_size s))).
  - done.
  - done.
  - simpl. rewrite Hcs. by apply Hload2.
  - unfold deep_copy_of. simpl. split_and!; try done.
    + exists cs. split; by apply Hload2.
    + congruence.
    + by exists b, b'.
Qed.

Lemma make_then_to_data_deep_copy_witness :
  0 < sv_size sample_span ∧
  readable sample_heap (sv_data sample_span) (sv_size sample_span) ∧
  ∃ d h1 d' h2,
    make sample_span text sample_heap = Ok (d, h1) ∧
    to_data d h1 = Ok (d', h2) ∧
    size d = sv_size sample_span ∧ format d = text ∧
    load_range h2 (bytes d) (size d) =
      load_range sample_heap (sv_data sample_span) (sv_size sample_span) ∧
    deep_copy_of h2 d d'.
Proof.
  assert (H1 : 0 < sv_size sample_span) by reflexivity.
  assert (H2 : readable sample_heap (sv_data sample_span) (sv_size sample_span)).
  { split; [by vm_compute | by eexists]. }
  split; [exact H1|]. split; [exact H2|].
  exact (make_then_to_data_deep_copy sample_heap sample_span text H1 H2).
Defined.

Lemma Data_view_ctor_Ok (p : pointer) (n : N) (f : Format) :
  Data_view_ctor p n f = Ok (Data_view_init p n f).
Proof.
  unfold Data_view_ctor, Data_view_init, is_invariant_ok. simpl.
  destruct p; simpl; try done.
  - unfold Data_view_is_empty, Data_view_size. simpl.
    by destruct (n =? 0).
  - unfold Data_view_is_empty, Data_view_size. simpl.
    by destruct (n =? 0).
Qed.

(** The C-string constructor passes its assertion whenever its body
    runs through. *)
Lemma Data_view_of_c_str_Ok (h : heap) (p : pointer) :
  Data_view_of_c_str h p = Data_view_of_c_str_init h p.
Proof.
  unfold Data_view_of_c_str, Data_view_of_c_str_init.
  destruct (to_bool p) eqn:Hp; [|done].
  destruct (strlen h p) as [n| |]; [|done|done].
  change (assert (is_invariant_ok (view_Data (mk_Data_view text (mk_string_view p n))))
            ≫= (λ _, Ok (mk_Data_view text (mk_string_view p n))) = Ok (mk_Data_view text (mk_string_view p n))).
  unfold is_invariant_ok, bytes, size, is_empty, Data_view_is_empty,
    Data_view_size, Data_view_bytes, view_data_, sv_size, sv_data.
  rewrite Hp. by destruct (n =? 0).
Qed.

(** C6. [make_no_copy] on a non-empty span (whose pointer is then not
    null) returns the [Data_view] of exactly that span and format: its
    [bytes()] is the pointer of the span, its [size()] and [format()] are
    the given ones; it neither reads nor writes the heap. On an empty span
    it returns an [empty_Data] of the given format. *)
Theorem make_no_copy_aliases (s : string_view) (f : Format) :
  (0 < sv_size s → sv_data s ≠ nullptr →
   ∃ v, make_no_copy s f = Ok (view_Data v) ∧
        v = {| view_format_ := f; view_data_ := s |} ∧
        bytes (view_Data v) = sv_data s ∧
        size (view_Data v) = sv_size s ∧
        format (view_Data v) = f) ∧
  (sv_size s = 0 → make_no_copy s f = Ok (empty_Data f)).
Proof.
  split.
  - intros Hpos Hnn. exists {| view_format_ := f; view_data_ := s |}.
    unfold make_no_copy. apply N.ltb_lt in Hpos as ->.
    rewrite Data_view_ctor_Ok. unfold Data_view_init.
    destruct s as [p n]. simpl in *. by destruct p.
  - intros Hz. unfold make_no_copy. by rewrite Hz.
Qed.

Lemma make_no_copy_aliases_witness :
  0 < sv_size sample_span ∧ sv_data sample_span ≠ nullptr ∧
  ∃ v, make_no_copy sample_span binary = Ok (view_Data v) ∧
       v = {| view_format_ := binary; view_data_ := sample_span |} ∧
       bytes (view_Data v) = sv_data sample_span ∧
       size (view_Data v) = sv_size sample_span ∧
       format (view_Data v) = binary.
Proof.
  assert (H1 : 0 < sv_size sample_span) by reflexivity.
  assert (H2 : sv_data sample_span ≠ nullptr) by (simpl; discriminate).
  split; [exact H1|]. split; [exact H2|].
  exact (proj1 (make_no_copy_aliases sample_span binary) H1 H2).
Defined.

(** ** Data_view *)

(** C8. [to_data] of a [Data_view] over a readable range allocates a
    fresh block of exactly [size()] cells, copies the borrowed bytes into
    it and returns an array [memory_Data] with the format and the size of
    the view. Nothing follows the copy: the cell one past it is not
    readable. For a view of length zero the result is still a
    [memory_Data] that owns a (zero-sized) block, and its [bytes()] is
    not null. *)
Theorem Data_view_to_data_allocates (h : heap) (v : Data_view) :
  readable h (Data_view_bytes v) (Data_view_size v) →
  ∃ b cs,
    h !! b = None ∧
    load_range h (Data_view_bytes v) (Data_view_size v) = Some cs ∧
    length cs = N.to_nat (Data_view_size v) ∧
    to_data (view_Data v) h =
      Ok (array_memory_Data (Data_view_format v) (Data_view_size v) (heap_ptr b 0),
          <[b := cs]> h) ∧
    load_range (<[b := cs]> h) (heap_ptr b 0) (Data_view_size v) = Some cs ∧
    load_range (<[b := cs]> h) (heap_ptr b 0) (Data_view_size v + 1) = None ∧
    bytes (array_memory_Data (Data_view_format v) (Data_view_size v) (heap_ptr b 0))
      = heap_ptr b 0.
Proof.
  intros [Hmax [cs Hcs]].
  pose proof (load_range_length _ _ _ _ Hcs) as Hlen.
  pose proof (fresh_block_None h) as Hfresh.
  exists (fresh (dom h)), cs. split_and!; try done.
  - simpl. unfold Data_view_to_data, Data_view_bytes, Data_view_size in *.
    unfold mbind, M_bind, operator_new_array, memcpy.
    rewrite load_range_insert_None by eauto. rewrite Hcs.
    unfold store_range. rewrite lookup_insert_eq. simpl.
    rewrite length_replicate, decide_True by lia.
    rewrite insert_insert_eq. unfold lift. rewrite memory_Data_ctor_Ok.
    do 3 f_equal. rewrite drop_ge by (rewrite length_replicate; lia).
    by rewrite app_nil_r.
  - rewrite (load_range_block _ _ cs); [|apply lookup_insert_eq|lia].
    by rewrite <- Hlen, firstn_all.
  - unfold load_range. simpl. rewrite lookup_insert_eq. simpl.
    rewrite decide_False by lia. done.
Qed.

Lemma Data_view_to_data_allocates_witness :
  readable sample_heap (Data_view_bytes Data_view_default)
    (Data_view_size Data_view_default) ∧
  ∃ b,
    sample_heap !! b = None ∧
    to_data (view_Data Data_view_default) sample_heap =
      Ok (array_memory_Data invalid_format 0 (heap_ptr b 0), <[b := []]> sample_heap).
Proof.
  assert (H : readable sample_heap (Data_view_bytes Data_view_default)
                (Data_view_size Data_view_default)).
  { split; [by vm_compute | by eexists]. }
  split; [exact H|].
  destruct (Data_view_to_data_allocates sample_heap Data_view_default H)
    as (b & cs & Hb & Hcs & Hlen & Hto & _).
  exists b. split; [exact Hb|].
  destruct cs; [exact Hto | discriminate Hlen].
Defined.

(** C9. Both constructors of [Data_view] from a pointer, given a null
    pointer, pass their assertion and build the default view: the format
    is the invalid sentinel and the length is zero. On that view [size()]
    is 0, [is_empty()] is true, [bytes()] is the address of a readable
    NUL, not null, and [is_invariant_ok()] is true. *)
Theorem Data_view_of_null_is_invalid_and_safe (h : heap) (n : N) (f : Format) :
  Data_view_of_c_str h nullptr = Ok Data_view_default ∧
  Data_view_ctor nullptr n f = Ok Data_view_default ∧
  Data_view_format Data_view_default = invalid_format ∧
  Data_view_size Data_view_default = 0 ∧
  Data_view_is_empty Data_view_default = true ∧
  Data_view_bytes Data_view_default ≠ nullptr ∧
  load_range h (Data_view_bytes Data_view_default) 1 = Some [Byte_val x00] ∧
  is_invariant_ok (view_Data Data_view_default) = true.
Proof. by split_and!. Qed.

(** What move assignment does to two distinct views. *)
Lemma Data_view_move_assign_distinct (σ : gmap nat Data_view) this rhs t r :
  this ≠ rhs → σ !! this = Some t → σ !! rhs = Some r →
  Data_view_move_assign σ this rhs =
    Some (<[this := r]>
            (<[rhs := {| view_format_ := invalid_format;
                         view_data_ := view_data_ r |}]> σ)).
Proof.
  intros Hne Ht Hr. unfold Data_view_move_assign.
  rewrite decide_True by done. rewrite Hr. simpl.
  rewrite lookup_insert_ne by done. rewrite Ht. simpl.
  by destruct r.
Qed.

(** Move assignment of a view to itself changes nothing. *)
Lemma Data_view_move_assign_self (σ : gmap nat Data_view) a v :
  σ !! a = Some v → Data_view_move_assign σ a a = Some σ.
Proof.
  intros Ha. unfold Data_view_move_assign.
  rewrite decide_False by (intros H; by apply H). by rewrite Ha.
Qed.

(** Every view after a move assignment borrows a span that some view
    borrowed before it. *)
Lemma Data_view_move_assign_data (σ σ' : gmap nat Data_view) this rhs a v :
  Data_view_move_assign σ this rhs = Some σ' → σ' !! a = Some v →
  ∃ a0 v0, σ !! a0 = Some v0 ∧ view_data_ v = view_data_ v0.
Proof.
  intros Hm Ha. destruct (decide (this = rhs)) as [->|Hne].
  - destruct (σ !! rhs) as [w|] eqn:Hw.
    + rewrite (Data_view_move_assign_self _ _ _ Hw) in Hm.
      injection Hm as <-. eauto.
    + unfold Data_view_move_assign in Hm.
      rewrite decide_False in Hm by (intros H; by apply H).
      by rewrite Hw in Hm.
  - destruct (σ !! rhs) as [r|] eqn:Hr; cycle 1.
    { unfold Data_view_move_assign in Hm.
      rewrite decide_True in Hm by done. by rewrite Hr in Hm. }
    destruct (σ !! this) as [t|] eqn:Ht; cycle 1.
    { unfold Data_view_move_assign in Hm.
      rewrite decide_True in Hm by done. rewrite Hr in Hm. simpl in Hm.
      rewrite lookup_insert_ne in Hm by done. by rewrite Ht in Hm. }
    rewrite (Data_view_move_assign_distinct _ _ _ _ _ Hne Ht Hr) in Hm.
    injection Hm as <-.
    destruct (decide (a = this)) as [->|Hat].
    { rewrite lookup_insert_eq in Ha. injection Ha as <-. eauto. }
    rewrite lookup_insert_ne in Ha by done.
    destruct (decide (a = rhs)) as [->|Har].
    { rewrite lookup_insert_eq in Ha. injection Ha as <-. eauto. }
    rewrite lookup_insert_ne in Ha by done. eauto.
Qed.

(** The address a [Data] shows is never null. *)
Lemma Data_instance_bytes_nonnull (d : Data) :
  Data_instance d → bytes d ≠ nullptr.
Proof.
  induction 1 as [f s|k f n p|f| |h p v Hv|p n f|d Hd IH|v Hv IH|v Hv IH
                 |v w Hv IHv Hw IHw|v w Hv IHv Hw IHw
                 |σ σ' this rhs a v Hσ IH Hm Ha]; simpl in *; try done.
  - by destruct p.
  - unfold Data_view_of_c_str_init in Hv.
    destruct (to_bool p) eqn:Hp; [|by injection Hv as <-].
    destruct (strlen h p); simpl in Hv; try done.
    injection Hv as <-. simpl. by destruct p.
  - by destruct p.
  - unfold Data_view_init. destruct (bytes d); simpl; done.
  - destruct (Data_view_move_assign_data _ _ _ _ _ _ Hm Ha) as (a0 & v0 & H0 & Heq).
    unfold Data_view_bytes. rewrite Heq. by apply (IH a0 v0).
Qed.

(** C1. For every [Data] of every implementation, [(size() == 0)] and
    [is_empty()] agree, and when [is_empty()] is true [bytes()] is not
    null; [is_invariant_ok()] holds. *)
Theorem Data_invariant (d : Data) :
  Data_instance d →
  (size d =? 0) = is_empty d ∧
  (is_empty d = true → bytes d ≠ nullptr) ∧
  is_invariant_ok d = true.
Proof.
  intros Hd. pose proof (Data_instance_bytes_nonnull d Hd) as Hnn.
  assert (Hsz : (size d =? 0) = is_empty d) by by destruct d.
  split_and!; [done|done|].
  unfold is_invariant_ok. rewrite Hsz.
  destruct (is_empty d); simpl; [|done].
  by destruct (bytes d).
Qed.

Lemma Data_invariant_witness :
  Data_instance (view_Data (Data_view_move_ctor (Data_view_init nullptr 5 text)).2) ∧
  (size (view_Data (Data_view_move_ctor (Data_view_init nullptr 5 text)).2) =? 0) =
    is_empty (view_Data (Data_view_move_ctor (Data_view_init nullptr 5 text)).2) ∧
  (is_empty (view_Data (Data_view_move_ctor (Data_view_init nullptr 5 text)).2) = true →
   bytes (view_Data (Data_view_move_ctor (Data_view_init nullptr 5 text)).2) ≠ nullptr) ∧
  is_invariant_ok (view_Data (Data_view_move_ctor (Data_view_init nullptr 5 text)).2) = true.
Proof.
  assert (H : Data_instance
                (view_Data (Data_view_move_ctor (Data_view_init nullptr 5 text)).2)).
  { apply instance_view_moved_from, instance_view_ctor. }
  split; [exact H|].
  exact (Data_invariant _ H).
Defined.

(** C7, as the code has it. Move construction gives the new view the
    format and the span (bytes and size) of the source, and move
    assignment between two distinct views gives them to the target; the
    source is left with the invalid sentinel format, and with the span it
    had: its bytes and its length are not reset. *)
Theorem Data_view_move_transfers_and_invalidates :
  (∀ rhs : Data_view,
     (Data_view_move_ctor rhs).1 = rhs ∧
     Data_view_format (Data_view_move_ctor rhs).2 = invalid_format ∧
     Data_view_bytes (Data_view_move_ctor rhs).2 = Data_view_bytes rhs ∧
     Data_view_size (Data_view_move_ctor rhs).2 = Data_view_size rhs) ∧
  (∀ (σ : gmap nat Data_view) this rhs t r,
     this ≠ rhs → σ !! this = Some t → σ !! rhs = Some r →
     ∃ σ' r',
       Data_view_move_assign σ this rhs = Some σ' ∧
       σ' !! this = Some r ∧
       σ' !! rhs = Some r' ∧
       Data_view_format r' = invalid_format ∧
       Data_view_bytes r' = Data_view_bytes r ∧
       Data_view_size r' = Data_view_size r ∧
       (∀ a, a ≠ this → a ≠ rhs → σ' !! a = σ !! a)).
Proof.
  split.
  - intros [f d]. by split_and!.
  - intros σ this rhs t r Hne Ht Hr.
    exists (<[this := r]>
              (<[rhs := {| view_format_ := invalid_format;
                           view_data_ := view_data_ r |}]> σ)),
           {| view_format_ := invalid_format; view_data_ := view_data_ r |}.
    split; [by apply (Data_view_move_assign_distinct _ _ _ t)|].
    split_and!.
    + apply lookup_insert_eq.
    + rewrite lookup_insert_ne by done. apply lookup_insert_eq.
    + done.
    + done.
    + done.
    + intros a H1 H2. by rewrite !lookup_insert_ne.
Qed.

Lemma Data_view_move_transfers_and_invalidates_witness :
  (1 ≠ 2)%nat ∧
  sample_views !! 1%nat = Some Data_view_default ∧
  sample_views !! 2%nat = Some sample_view ∧
  ∃ σ' r',
    Data_view_move_assign sample_views 1 2 = Some σ' ∧
    σ' !! 1%nat = Some sample_view ∧
    σ' !! 2%nat = Some r' ∧
    Data_view_format r' = invalid_format ∧
    Data_view_bytes r' = Data_view_bytes sample_view ∧
    Data_view_size r' = Data_view_size sample_view ∧
    (∀ a, a ≠ 1%nat → a ≠ 2%nat → σ' !! a = sample_views !! a).
Proof.
  assert (H1 : (1 ≠ 2)%nat) by lia.
  assert (H2 : sample_views !! 1%nat = Some Data_view_default) by reflexivity.
  assert (H3 : sample_views !! 2%nat = Some sample_view) by reflexivity.
  split; [exact H1|]. split; [exact H2|]. split; [exact H3|].
  exact (proj2 Data_view_move_transfers_and_invalidates
           sample_views 1%nat 2%nat Data_view_default sample_view H1 H2 H3).
Defined.

(** C7 as stated fails: after move construction from a view of two
    bytes, and after move assignment from it, the source still has length
    two, so it is not in the state of a default-constructed view. *)
Lemma Data_view_moved_from_keeps_its_length :
  ¬ (Data_view_format (Data_view_move_ctor sample_view).2 = invalid_format ∧
     Data_view_size (Data_view_move_ctor sample_view).2 = 0) ∧
  ¬ (∃ σ', Data_view_move_assign sample_views 1 2 = Some σ' ∧
           σ' !! 2%nat = Some Data_view_default).
Proof.
  split.
  - intros [_ H]. discriminate H.
  - intros (σ' & Hm & H2).
    vm_compute in Hm. injection Hm as <-. vm_compute in H2. discriminate H2.
Qed.

(** ** The connection pool *)

(** Pushes a lookup through the updates of a store of objects. *)
Ltac lookup_through_alter :=
  repeat first
    [ rewrite lookup_alter_eq
    | rewrite lookup_insert_eq
    | rewrite lookup_alter_ne by (done || by apply not_eq_sym)
    | rewrite lookup_insert_ne by (done || by apply not_eq_sym) ].

Section Connection_pool_properties.
Context {Connection : Type}.
Implicit Types (p : Connection_pool Connection) (h : Handle Connection).

Lemma Handle_default_invalid : Handle_is_valid (@Handle_default Connection) = false.
Proof. done. Qed.

Lemma Handle_is_valid_true h :
  Handle_is_valid h = true ↔ is_Some (pool_ h) ∧ is_Some (connection_ h).
Proof.
  unfold Handle_is_valid. rewrite andb_true_iff, !bool_decide_eq_true. done.
Qed.

Lemma Handle_no_connection_invalid h :
  connection_ h = None → Handle_is_valid h = false.
Proof.
  intros H. apply not_true_is_false. rewrite Handle_is_valid_true, H.
  intros [_ [? ?]]. done.
Qed.

(** The outcome of [connection()] when slot [i] is the first free one. *)
Lemma connection_first_free (this : nat) p i c :
  is_connected p = true →
  connections_ p !! i = Some (c, false) →
  (∀ j slot, (j < i)%nat → connections_ p !! j = Some slot → slot.2 = true) →
  connection this p =
    (Handle_ctor this c i,
     set_connections_ (<[i := (None, true)]> (connections_ p)) p).
Proof.
  intros Hc Hi Hbusy. unfold connection. rewrite Hc.
  assert (list_find (λ slot, slot.2 = false) (connections_ p)
          = Some (i, (c, false))) as ->; [|done].
  apply list_find_Some. split_and!; [done|done|].
  intros j y Hj Hlt. rewrite (Hbusy j y Hlt Hj). done.
Qed.

(** Checking a connection out keeps every free slot filled. *)
Lemma connection_slots_ok (this : nat) p :
  slots_ok p → slots_ok (connection this p).2.
Proof.
  intros Hok. unfold connection. destruct (is_connected p); [|done].
  destruct (list_find _ _) as [[i [c b]]|] eqn:Hf; [|done].
  intros j c' Hj. simpl in Hj.
  destruct (decide (i = j)) as [->|Hne].
  - apply list_find_Some in Hf as (Hl & _ & _).
    rewrite list_lookup_insert_eq in Hj by (by eapply lookup_lt_Some).
    done.
  - rewrite list_lookup_insert_ne in Hj by done. by eapply Hok.
Qed.

(** C2. [connection()] always returns a handle. If the pool is not
    connected, or every slot is busy, the handle is the default one,
    which is invalid, and the pool is as it was. Otherwise, with [i] the
    first free slot, the slot is marked busy and emptied, and the
    handle holds the address of the pool, the connection of the slot
    and the index [i]; it is valid, free slots holding their
    connection. *)
Theorem connection_is_immediate (this : nat) p :
  Handle_is_valid (@Handle_default Connection) = false ∧
  (is_connected p = false → connection this p = (Handle_default, p)) ∧
  (Forall (λ slot, slot.2 = true) (connections_ p) →
   connection this p = (Handle_default, p)) ∧
  (∀ i c,
     is_connected p = true →
     connections_ p !! i = Some (c, false) →
     (∀ j slot, (j < i)%nat → connections_ p !! j = Some slot → slot.2 = true) →
     connection this p =
       (Handle_ctor this c i,
        set_connections_ (<[i := (None, true)]> (connections_ p)) p) ∧
     connections_ (connection this p).2 !! i = Some (None, true) ∧
     pool_size (connection this p).2 = pool_size p ∧
     Handle_pool (connection this p).1 = Some this ∧
     connection_ (connection this p).1 = c ∧
     connection_index_ (connection this p).1 = i ∧
     (slots_ok p → Handle_is_valid (connection this p).1 = true)).
Proof.
  split_and!.
  - done.
  - intros Hc. unfold connection. by rewrite Hc.
  - intros Hbusy. unfold connection. destruct (is_connected p); [|done].
    assert (list_find (λ slot, slot.2 = false) (connections_ p) = None) as ->;
      [|done].
    apply list_find_None. eapply Forall_impl; [exact Hbusy|].
    intros slot Ht Hf. congruence.
  - intros i c Hc Hi Hbusy.
    rewrite (connection_first_free this p i c Hc Hi Hbusy). simpl.
    split_and!; try done.
    + apply list_lookup_insert_eq. by eapply lookup_lt_Some.
    + unfold pool_size. simpl. apply length_insert.
    + intros Hok. apply Handle_is_valid_true. simpl. split; [by eexists|].
      by eapply Hok.
Qed.

(** ** Handle *)

(** What the defaulted move assignment does to two distinct handles. *)
Lemma Handle_move_assign_distinct (σ : gmap nat (Handle Connection))
    this rhs t r :
  this ≠ rhs → σ !! this = Some t → σ !! rhs = Some r →
  Handle_move_assign σ this rhs =
    Some (<[this := r]> (<[rhs := set_connection_ None r]> σ)).
Proof.
  intros Hne Ht Hr. unfold Handle_move_assign.
  do 3 (lookup_through_alter; rewrite ?Hr, ?Ht; simpl). f_equal.
  apply map_eq. intros a.
  destruct (decide (a = this)) as [->|Hat];
    [|destruct (decide (a = rhs)) as [->|Har]];
    lookup_through_alter; rewrite ?Hr, ?Ht; simpl; try done.
  by destruct r.
Qed.

(** Move assignment of a handle to itself changes nothing: the
    [unique_ptr] gets back what it released. *)
Lemma Handle_move_assign_self (σ : gmap nat (Handle Connection)) a h :
  σ !! a = Some h → Handle_move_assign σ a a = Some σ.
Proof.
  intros Ha. unfold Handle_move_assign.
  do 3 (lookup_through_alter; rewrite ?Ha; simpl). f_equal.
  apply map_eq. intros b. destruct (decide (b = a)) as [->|Hne];
    lookup_through_alter; [|done].
  rewrite Ha. simpl. by destruct h.
Qed.

(** C10. After move construction from a valid handle, and after move
    assignment from a valid handle to another handle, the target is
    what the source was, and the source holds no connection and is
    invalid, while its [pool()] still returns the pool of before, which
    is not null. *)
Theorem Handle_move_leaves_pool_pointer :
  (∀ rhs : Handle Connection,
     Handle_is_valid rhs = true →
     (Handle_move_ctor rhs).1 = rhs ∧
     connection_ (Handle_move_ctor rhs).2 = None ∧
     Handle_is_valid (Handle_move_ctor rhs).2 = false ∧
     Handle_pool (Handle_move_ctor rhs).2 = Handle_pool rhs ∧
     is_Some (Handle_pool (Handle_move_ctor rhs).2)) ∧
  (∀ (σ : gmap nat (Handle Connection)) this rhs t r,
     this ≠ rhs → σ !! this = Some t → σ !! rhs = Some r →
     Handle_is_valid r = true →
     ∃ σ' r',
       Handle_move_assign σ this rhs = Some σ' ∧
       σ' !! this = Some r ∧
       σ' !! rhs = Some r' ∧
       connection_ r' = None ∧
       Handle_is_valid r' = false ∧
       Handle_pool r' = Handle_pool r ∧
       is_Some (Handle_pool r')).
Proof.
  split.
  - intros rhs Hv. apply Handle_is_valid_true in Hv as [Hp Hc].
    split_and!; try done.
    + by destruct rhs.
    + by apply Handle_no_connection_invalid.
  - intros σ this rhs t r Hne Ht Hr Hv.
    apply Handle_is_valid_true in Hv as [Hp Hc].
    exists (<[this := r]> (<[rhs := set_connection_ None r]> σ)),
           (set_connection_ None r).
    split; [by apply (Handle_move_assign_distinct _ _ _ t)|].
    split_and!; try done.
    + apply lookup_insert_eq.
    + rewrite lookup_insert_ne by done. apply lookup_insert_eq.
    + by apply Handle_no_connection_invalid.
Qed.

(** ** release *)

Lemma cleared_holds_neither h :
  pool_ h = None → connection_ h = None → cleared h = h.
Proof. destruct h as [hp hc hi]. simpl. by intros -> ->. Qed.

Lemma release_invalid p h :
  Handle_is_valid h = false → release p h = (p, cleared h).
Proof. intros H. unfold release. by rewrite H. Qed.



(** Returning a connection to a connected pool keeps every free slot
    filled. *)
Lemma release_slots_ok p h :
  is_connected p = true → slots_ok p → slots_ok (release p h).1.
Proof.
  intros Hcon Hok. unfold release. destruct (Handle_is_valid h) eqn:Hv; [|done].
  rewrite Hcon.
  intros j c Hj. simpl in Hj.
  apply Handle_is_valid_true in Hv as [_ [c0 Hc0]].
  destruct (decide (connection_index_ h = j)) as [<-|Hne].
  - destruct (decide (connection_index_ h < length (connections_ p))%nat).
    + rewrite list_lookup_insert_eq in Hj by done.
      injection Hj as <-. rewrite Hc0. by eexists.
    + rewrite list_insert_ge in Hj by lia. by eapply Hok.
  - rewrite list_lookup_insert_ne in Hj by done. by eapply Hok.
Qed.

(** [Handle::release] does what [Connection_pool::release] does on a
    handle whose connection, if any, came with a pool. *)
Lemma Handle_release_is_release p h :
  (pool_ h = None → connection_ h = None) →
  Handle_release p h = release p h.
Proof.
  intros Hwf. unfold Handle_release. destruct (pool_ h) eqn:Hp; [done|].
  rewrite release_invalid; cycle 1.
  { unfold Handle_is_valid. rewrite Hp. apply andb_false_iff. left.
    apply bool_decide_eq_false. by intros [? ?]. }
  by rewrite cleared_holds_neither by auto.
Qed.

(** Whatever connection_pool.cpp does, no [release] can both leave
    every invalid handle alone and leave every handle without a pool:
    a moved-from handle is invalid and has one. *)
Lemma no_release_is_noop_and_clears_pool
    (rel : Connection_pool Connection → Handle Connection →
           Connection_pool Connection * Handle Connection)
    (p : Connection_pool Connection) (c : Connection) :
  ¬ ((∀ h, Handle_is_valid h = false → rel p h = (p, h)) ∧
     (∀ h, Handle_pool (rel p h).2 = None)).
Proof.
  intros [Hnoop Hclr].
  pose (h := (Handle_move_ctor (Handle_ctor 0 (Some c) 0)).2).
  specialize (Hclr h). rewrite (Hnoop h) in Hclr by done. done.
Qed.

End Connection_pool_properties.

Lemma connection_is_immediate_witness :
  is_connected sample_pool = true ∧
  connections_ sample_pool !! 1%nat = Some (Some 7%nat, false) ∧
  (∀ j slot, (j < 1)%nat → connections_ sample_pool !! j = Some slot →
             slot.2 = true) ∧
  connection 100 sample_pool =
    (Handle_ctor 100 (Some 7%nat) 1,
     set_connections_ (<[1%nat := (None, true)]> (connections_ sample_pool))
       sample_pool).
Proof.
  assert (H1 : is_connected sample_pool = true) by reflexivity.
  assert (H2 : connections_ sample_pool !! 1%nat = Some (Some 7%nat, false))
    by reflexivity.
  assert (H3 : ∀ j slot, (j < 1)%nat → connections_ sample_pool !! j = Some slot →
                         slot.2 = true).
  { intros [|j] slot Hj; [|lia]. simpl. intros [= <-]. reflexivity. }
  split; [exact H1|]. split; [exact H2|]. split; [exact H3|].
  exact (proj1 (proj2 (proj2 (proj2 (connection_is_immediate 100 sample_pool)))
                  1%nat (Some 7%nat) H1 H2 H3)).
Defined.

Lemma Handle_move_leaves_pool_pointer_witness :
  (1 ≠ 2)%nat ∧
  sample_handles !! 1%nat = Some Handle_default ∧
  sample_handles !! 2%nat = Some sample_handle ∧
  Handle_is_valid sample_handle = true ∧
  ∃ σ' r',
    Handle_move_assign sample_handles 1 2 = Some σ' ∧
    σ' !! 1%nat = Some sample_handle ∧
    σ' !! 2%nat = Some r' ∧
    connection_ r' = None ∧
    Handle_is_valid r' = false ∧
    Handle_pool r' = Handle_pool sample_handle ∧
    is_Some (Handle_pool r').
Proof.
  assert (H1 : (1 ≠ 2)%nat) by lia.
  assert (H2 : sample_handles !! 1%nat = Some Handle_default) by reflexivity.
  assert (H3 : sample_handles !! 2%nat = Some sample_handle) by reflexivity.
  assert (H4 : Handle_is_valid sample_handle = true) by reflexivity.
  split; [exact H1|]. split; [exact H2|]. split; [exact H3|]. split; [exact H4|].
  exact (proj2 Handle_move_leaves_pool_pointer
           sample_handles 1%nat 2%nat Handle_default sample_handle H1 H2 H3 H4).
Defined.



(** * Further properties *)

(** ** Deep copies *)

Lemma load_range_shorter (h : heap) p n cs :
  load_range h p (n + 1) = Some cs →
  load_range h p n = Some (take (N.to_nat n) cs).
Proof.
  unfold load_range. destruct (block_of h p) as [[blk off]|]; simpl; [|done].
  case_decide; [|done]. intros [= <-].
  rewrite decide_True by lia. f_equal.
  rewrite take_take. f_equal. lia.
Qed.

(** The one computation behind [Data_view::to_data]. *)
Lemma Data_view_to_data_eq (h : heap) (v : Data_view) (cs : list cell) :
  load_range h (Data_view_bytes v) (Data_view_size v) = Some cs →
  Data_view_to_data v h =
    Ok (array_memory_Data (Data_view_format v) (Data_view_size v)
          (heap_ptr (fresh (dom h)) 0),
        <[fresh (dom h) := cs]> h).
Proof.
  intros Hcs.
  pose proof (load_range_length _ _ _ _ Hcs) as Hlen.
  pose proof (fresh_block_None h) as Hfresh.
  unfold Data_view_to_data, Data_view_bytes, Data_view_size, Data_view_format in *.
  unfold mbind, M_bind, operator_new_array, memcpy.
  rewrite load_range_insert_None by eauto. rewrite Hcs.
  unfold store_range. rewrite lookup_insert_eq. simpl.
  rewrite length_replicate, decide_True by lia.
  rewrite insert_insert_eq. unfold lift. rewrite memory_Data_ctor_Ok.
  do 3 f_equal. rewrite drop_ge by (rewrite length_replicate; lia).
  by rewrite app_nil_r.
Qed.

(** Reading a whole block, or the front of a block with one more cell. *)
Lemma load_range_whole (h : heap) b cs n :
  h !! b = Some cs → length cs = N.to_nat n →
  load_range h (heap_ptr b 0) n = Some cs.
Proof.
  intros Hb Hlen. rewrite (load_range_block _ _ _ _ Hb) by lia.
  by rewrite <- Hlen, firstn_all.
Qed.

Lemma load_range_front (h : heap) b cs c n :
  h !! b = Some (cs ++ [c]) → length cs = N.to_nat n →
  load_range h (heap_ptr b 0) n = Some cs.
Proof.
  intros Hb Hlen. rewrite (load_range_block _ _ _ _ Hb)
    by (rewrite length_app; lia).
  by rewrite <- Hlen, take_app_length.
Qed.

(** X1. [to_data] of any [Data] whose bytes can be read succeeds, and
    the copy has the format, the size and the bytes of the original; no
    block that was there is changed. *)
Theorem to_data_copies_every_Data (h : heap) (d : Data) :
  Data_readable h d →
  ∃ d' h',
    to_data d h = Ok (d', h') ∧
    format d' = format d ∧
    size d' = size d ∧
    load_range h' (bytes d') (size d') = Some (contents h d) ∧
    (0 < size d → load_range h (bytes d) (size d) = Some (contents h d)) ∧
    h ⊆ h'.
Proof.
  pose proof (fresh_block_None h) as Hfresh.
  destruct d as [f s|k f n p|f|v]; simpl; intros Hr.
  - destruct Hr as [cs Hcs].
    pose proof (load_range_length _ _ _ _ Hcs) as Hlen.
    pose proof (load_range_shorter _ _ _ _ Hcs) as Hfront.
    eexists _, _. split.
    { unfold mbind, M_bind, string_copy. rewrite Hcs.
      unfold lift. by rewrite container_Data_ctor_Ok. }
    unfold contents. simpl. rewrite Hfront. simpl. split_and!; try done.
    + unfold string_data. simpl.
      rewrite (load_range_block _ _ cs); [done|apply lookup_insert_eq|lia].
    + by apply insert_subseteq.
  - destruct Hr as [Hz|[Hmax [cs Hcs]]]; simpl in *.
    + subst n. eexists _, _. split; [done|].
      assert (contents h (memory_Data k f 0 p) = []) as ->.
      { unfold contents.
        destruct (load_range h _ _) as [cs|] eqn:Hcs; [|done].
        apply load_range_length in Hcs. by destruct cs. }
      split_and!; try done.
    + pose proof (load_range_length _ _ _ _ Hcs) as Hlen.
      assert (Hp : to_bool p = true) by by destruct p.
      destruct (decide (n = 0)) as [->|Hn].
      { destruct cs; [|done]. eexists _, _. split; [done|].
        unfold contents. simpl. rewrite Hp, Hcs. simpl.
        split_and!; try done. }
      eexists _, _. split.
      { apply (make_nonempty h (mk_string_view p n) f cs); simpl; [lia|done|done]. }
      unfold contents. simpl. rewrite Hp, Hcs. simpl. split_and!; try done.
      * by apply (load_range_front _ _ _ (Byte_val x00)); [apply lookup_insert_eq|].
      * by apply insert_subseteq.
  - eexists _, _. split; [done|]. by split_and!.
  - destruct Hr as [Hmax [cs Hcs]].
    pose proof (load_range_length _ _ _ _ Hcs) as Hlen.
    eexists _, _. split; [by apply Data_view_to_data_eq|].
    unfold contents. simpl. rewrite Hcs. simpl. split_and!; try done.
    + by apply load_range_whole; [apply lookup_insert_eq|].
    + by apply insert_subseteq.
Qed.

Lemma to_data_copies_every_Data_witness :
  Data_readable sample_heap (view_Data sample_view) ∧
  ∃ d' h',
    to_data (view_Data sample_view) sample_heap = Ok (d', h') ∧
    format d' = binary ∧
    size d' = 2 ∧
    load_range h' (bytes d') (size d') = Some [Byte_val x62; Byte_val x63] ∧
    sample_heap ⊆ h'.
Proof.
  assert (H : Data_readable sample_heap (view_Data sample_view)).
  { split; [by vm_compute | by eexists]. }
  split; [exact H|].
  destruct (to_data_copies_every_Data sample_heap (view_Data sample_view) H)
    as (d' & h' & H1 & H2 & H3 & H4 & _ & H6).
  exists d', h'. split_and!; [exact H1|exact H2|exact H3|exact H4|exact H6].
Defined.

(** What a successful [make] returned, read back from its result. *)
Lemma make_inv (s : string_view) (f : Format) (h h' : heap) (d : Data) :
  make s f h = Ok (d, h') →
  (sv_size s = 0 ∧ d = empty_Data f ∧ h' = h) ∨
  (0 < sv_size s ∧
   d = array_memory_Data f (sv_size s) (heap_ptr (fresh (dom h)) 0) ∧
   ∃ blk, h' = <[fresh (dom h) := blk]> h).
Proof.
  unfold make. destruct (0 <? sv_size s) eqn:Hpos.
  - apply N.ltb_lt in Hpos. intros Hm. right. split; [done|].
    revert Hm. unfold mbind, M_bind, operator_new_array, memcpy.
    destruct (load_range _ _ _) as [cs|]; [|done].
    unfold store_range. rewrite lookup_insert_eq. simpl.
    case_decide; [|done].
    unfold store_char, store_range. rewrite lookup_insert_eq. simpl.
    case_decide; [|done].
    unfold lift. rewrite memory_Data_ctor_Ok. intros [= <- <-].
    split; [done|]. eexists. by rewrite !insert_insert_eq.
  - apply N.ltb_ge in Hpos. intros [= <- <-]. left. split_and!; [lia|done|done].
Qed.

(** X2. Whatever [to_data] returns is an owning [Data], never a view,
    with the format and the size of the original; the call changes no
    block that was there and adds at most one. *)
Theorem to_data_never_returns_a_view (h h' : heap) (d d' : Data) :
  to_data d h = Ok (d', h') →
  (∀ v, d' ≠ view_Data v) ∧
  format d' = format d ∧
  size d' = size d ∧
  h ⊆ h' ∧
  (h' = h ∨ ∃ blk, h' = <[fresh (dom h) := blk]> h).
Proof.
  pose proof (fresh_block_None h) as Hfresh.
  destruct d as [f s|k f n p|f|v]; simpl.
  - unfold mbind, M_bind, string_copy.
    destruct (load_range _ _ _) as [cs|]; [|done].
    unfold lift. rewrite container_Data_ctor_Ok. intros [= <- <-].
    split_and!; try done.
    + by apply insert_subseteq.
    + right. by eexists.
  - intros [(Hz & -> & ->)|(Hpos & -> & blk & ->)]%make_inv; simpl in *.
    + split_and!; try done. by left.
    + split_and!; try done.
      * by apply insert_subseteq.
      * right. by eexists.
  - intros [= <- <-]. split_and!; try done. by left.
  - unfold Data_view_to_data, mbind, M_bind, operator_new_array, memcpy.
    destruct (load_range _ _ _) as [cs|]; [|done].
    unfold store_range. rewrite lookup_insert_eq. simpl.
    case_decide; [|done].
    unfold lift. rewrite memory_Data_ctor_Ok. intros [= <- <-].
    rewrite insert_insert_eq. split_and!; try done.
    + by apply insert_subseteq.
    + right. by eexists.
Qed.

Lemma to_data_never_returns_a_view_witness :
  to_data (view_Data Data_view_default) sample_heap =
    Ok (array_memory_Data invalid_format 0 (heap_ptr 1 0),
        <[1%nat := []]> sample_heap) ∧
  ∀ v, array_memory_Data invalid_format 0 (heap_ptr 1 0) ≠ view_Data v.
Proof.
  assert (H : to_data (view_Data Data_view_default) sample_heap =
              Ok (array_memory_Data invalid_format 0 (heap_ptr 1 0),
                  <[1%nat := []]> sample_heap)) by reflexivity.
  split; [exact H|].
  exact (proj1 (to_data_never_returns_a_view _ _ _ _ H)).
Defined.

(** ** to_bytea *)

Section to_bytea_properties.
Variable PQunescapeBytea : heap → pointer → pointer * N * heap.

(** What [to_bytea__] does with the answer of the library. *)
Lemma to_bytea___eq (h h2 : heap) (text_ p : pointer) (n : N) :
  to_bool text_ = true →
  PQunescapeBytea h text_ = (p, n, h2) →
  to_bytea__ PQunescapeBytea text_ h =
    if to_bool p
    then Ok (Returned (custom_memory_Data binary n p), h2)
    else Ok (Thrown_bad_alloc, h2).
Proof.
  intros Ht Hq. unfold to_bytea__, mbind, M_bind, unescape.
  rewrite Ht. simpl. rewrite Hq.
  destruct (to_bool p) eqn:Hp; [|done].
  unfold make_custom. rewrite Hp. simpl. by rewrite memory_Data_ctor_Ok.
Qed.

(** X3. The [Data] that [make] builds from a non-empty text span passes
    the assertion of [to_bytea]: the character at [bytes()[size()]] is the
    terminator [make] wrote. [to_bytea] then returns the buffer of the
    library, adopted as a binary [memory_Data] without a copy, and throws
    [std::bad_alloc] when the library returns none. *)
Theorem to_bytea_of_made_text (h : heap) (s : string_view) :
  0 < sv_size s →
  readable h (sv_data s) (sv_size s) →
  ∃ d h1,
    make s text h = Ok (d, h1) ∧
    load_char h1 (bytes d) (size d) = Ok x00 ∧
    ∀ p n h2,
      PQunescapeBytea h1 (bytes d) = (p, n, h2) →
      Data_to_bytea PQunescapeBytea d h1 =
        if to_bool p
        then Ok (Returned (custom_memory_Data binary n p), h2)
        else Ok (Thrown_bad_alloc, h2).
Proof.
  intros Hpos [Hmax [cs Hcs]].
  pose proof (load_range_length _ _ _ _ Hcs) as Hlen.
  eexists _, _. split; [by apply make_nonempty|].
  assert (Hc : load_char (<[fresh (dom h) := cs ++ [Byte_val x00]]> h)
                 (heap_ptr (fresh (dom h)) 0) (sv_size s) = Ok x00).
  { unfold load_char. simpl. rewrite lookup_insert_eq. simpl.
    rewrite <- Hlen. by rewrite list_lookup_middle. }
  split; [done|].
  intros p n h2 Hq. simpl in *.
  unfold Data_to_bytea, mbind at 1, M_bind, to_bytea_assertion. simpl.
  rewrite Hc. simpl. by apply to_bytea___eq.
Qed.

(** X4. The copy that [to_data] makes of a text [Data_view] has no
    terminator: the assertion of [to_bytea] reads [bytes()[size()]] one
    past the end of the buffer, which is undefined. *)
Theorem to_bytea_of_view_copy_is_undefined (h : heap) (v : Data_view) :
  Data_view_format v = text →
  readable h (Data_view_bytes v) (Data_view_size v) →
  ∃ d h1,
    to_data (view_Data v) h = Ok (d, h1) ∧
    load_char h1 (bytes d) (size d) = Undefined_behaviour ∧
    Data_to_bytea PQunescapeBytea d h1 = Undefined_behaviour.
Proof.
  intros Hf [Hmax [cs Hcs]].
  pose proof (load_range_length _ _ _ _ Hcs) as Hlen.
  eexists _, _. split; [by apply Data_view_to_data_eq|].
  assert (Hc : load_char (<[fresh (dom h) := cs]> h)
                 (heap_ptr (fresh (dom h)) 0) (Data_view_size v)
               = Undefined_behaviour).
  { unfold load_char. simpl. rewrite lookup_insert_eq. simpl.
    rewrite <- Hlen. by rewrite lookup_ge_None_2. }
  split; [done|].
  unfold Data_to_bytea, mbind, M_bind, to_bytea_assertion. simpl.
  rewrite Hf. simpl. by rewrite Hc.
Qed.
End to_bytea_properties.

Lemma to_bytea_of_made_text_witness :
  0 < sv_size sample_span ∧
  readable sample_heap (sv_data sample_span) (sv_size sample_span) ∧
  ∃ d h1,
    make sample_span text sample_heap = Ok (d, h1) ∧
    load_char h1 (bytes d) (size d) = Ok x00 ∧
    ∀ p n h2,
      sample_unescape h1 (bytes d) = (p, n, h2) →
      Data_to_bytea sample_unescape d h1 =
        if to_bool p
        then Ok (Returned (custom_memory_Data binary n p), h2)
        else Ok (Thrown_bad_alloc, h2).
Proof.
  assert (H1 : 0 < sv_size sample_span) by reflexivity.
  assert (H2 : readable sample_heap (sv_data sample_span) (sv_size sample_span)).
  { split; [by vm_compute | by eexists]. }
  split; [exact H1|]. split; [exact H2|].
  exact (to_bytea_of_made_text sample_unescape sample_heap sample_span H1 H2).
Defined.

Lemma to_bytea_of_view_copy_is_undefined_witness :
  Data_view_format (mk_Data_view text sample_span) = text ∧
  readable sample_heap (Data_view_bytes (mk_Data_view text sample_span))
    (Data_view_size (mk_Data_view text sample_span)) ∧
  ∃ d h1,
    to_data (view_Data (mk_Data_view text sample_span)) sample_heap = Ok (d, h1) ∧
    load_char h1 (bytes d) (size d) = Undefined_behaviour ∧
    Data_to_bytea sample_unescape d h1 = Undefined_behaviour.
Proof.
  assert (H1 : Data_view_format (mk_Data_view text sample_span) = text)
    by reflexivity.
  assert (H2 : readable sample_heap
                 (Data_view_bytes (mk_Data_view text sample_span))
                 (Data_view_size (mk_Data_view text sample_span))).
  { split; [by vm_compute | by eexists]. }
  split; [exact H1|]. split; [exact H2|].
  exact (to_bytea_of_view_copy_is_undefined sample_unescape sample_heap
           (mk_Data_view text sample_span) H1 H2).
Defined.

(** ** Views of C strings and of other Data *)

(** [find_nul] finds the first terminator, past determinate characters
    only. *)
Lemma find_nul_terminated (bs : list byte) (rest : list cell) :
  x00 ∉ bs →
  find_nul ((Byte_val <$> bs) ++ Byte_val x00 :: rest) = Some (length bs).
Proof.
  induction bs as [|b bs IH]; intros Hnot; csimpl; [done|].
  apply not_elem_of_cons in Hnot as [Hb Hbs].
  destruct (Byte.eqb b x00) eqn:E.
  - apply Byte.byte_dec_bl in E. congruence.
  - by rewrite IH.
Qed.

Lemma find_nul_unterminated (bs : list byte) :
  x00 ∉ bs → find_nul (Byte_val <$> bs) = None.
Proof.
  induction bs as [|b bs IH]; intros Hnot; csimpl; [done|].
  apply not_elem_of_cons in Hnot as [Hb Hbs].
  destruct (Byte.eqb b x00) eqn:E.
  - apply Byte.byte_dec_bl in E. congruence.
  - by rewrite IH.
Qed.

Lemma drop_length_le {A} (l k : list A) (n : nat) :
  drop n l = k → (n + length k ≤ length l ∨ k = [])%nat.
Proof.
  intros <-. rewrite length_drop.
  destruct (decide (n ≤ length l)%nat); [left; lia|].
  right. apply drop_ge. lia.
Qed.

(** X5. The constructor of [Data_view] from a C string views exactly the
    characters before the first terminator, in text format: its size is
    their number, its bytes are the pointer it was given, reading the view
    gives those characters, and the character after them is the
    terminator. *)
Theorem Data_view_of_c_str_views_the_string
    (h : heap) (p : pointer) (blk : list cell) (off : nat)
    (bs : list byte) (rest : list cell) :
  block_of h p = Some (blk, off) →
  drop off blk = (Byte_val <$> bs) ++ Byte_val x00 :: rest →
  x00 ∉ bs →
  Data_view_of_c_str h p =
    Ok {| view_format_ := text;
          view_data_ := {| sv_data := p; sv_size := N.of_nat (length bs) |} |} ∧
  load_range h p (N.of_nat (length bs)) = Some (Byte_val <$> bs) ∧
  load_char h p (N.of_nat (length bs)) = Ok x00.
Proof.
  intros Hblk Hdrop Hnot.
  assert (Hp : to_bool p = true) by (by destruct p).
  split_and!.
  - rewrite Data_view_of_c_str_Ok. unfold Data_view_of_c_str_init, strlen.
    rewrite Hp, Hblk, Hdrop, find_nul_terminated by done. done.
  - unfold load_range. rewrite Hblk. simpl. rewrite Nat2N.id.
    destruct (drop_length_le _ _ _ Hdrop) as [Hle|Hnil];
      [|by destruct bs].
    rewrite length_app, length_fmap in Hle. simpl in Hle.
    rewrite decide_True by lia. rewrite Hdrop. f_equal.
    rewrite <- (length_fmap Byte_val bs). apply take_app_length.
  - unfold load_char. rewrite Hblk, Nat2N.id.
    rewrite <- lookup_drop, Hdrop.
    rewrite <- (length_fmap Byte_val bs) at 1.
    by rewrite list_lookup_middle.
Qed.

Lemma Data_view_of_c_str_views_the_string_witness :
  block_of sample_heap (heap_ptr 0 1) =
    Some ([Byte_val x61; Byte_val x62; Byte_val x63; Byte_val x00], 1%nat) ∧
  drop 1 [Byte_val x61; Byte_val x62; Byte_val x63; Byte_val x00] =
    (Byte_val <$> [x62; x63]) ++ Byte_val x00 :: [] ∧
  (x00 ∉ [x62; x63]) ∧
  Data_view_of_c_str sample_heap (heap_ptr 0 1) =
    Ok {| view_format_ := text;
          view_data_ := {| sv_data := heap_ptr 0 1; sv_size := 2 |} |}.
Proof.
  assert (H1 : block_of sample_heap (heap_ptr 0 1) =
    Some ([Byte_val x61; Byte_val x62; Byte_val x63; Byte_val x00], 1%nat))
    by reflexivity.
  assert (H2 : drop 1 [Byte_val x61; Byte_val x62; Byte_val x63; Byte_val x00] =
    (Byte_val <$> [x62; x63]) ++ Byte_val x00 :: []) by reflexivity.
  assert (H3 : x00 ∉ [x62; x63]).
  { intros H. apply list_elem_of_In in H. simpl in H.
    destruct H as [H|[H|[]]]; discriminate H. }
  split; [exact H1|]. split; [exact H2|]. split; [exact H3|].
  exact (proj1 (Data_view_of_c_str_views_the_string sample_heap (heap_ptr 0 1)
                  _ _ [x62; x63] [] H1 H2 H3)).
Defined.

(** X6. A C string that is not terminated inside its block, or whose
    characters run into an indeterminate cell before any terminator,
    makes the constructor undefined. *)
Theorem Data_view_of_c_str_unterminated
    (h : heap) (p : pointer) (blk : list cell) (off : nat)
    (bs : list byte) (rest : list cell) :
  block_of h p = Some (blk, off) →
  drop off blk = (Byte_val <$> bs) ∨
    drop off blk = (Byte_val <$> bs) ++ Indeterminate :: rest →
  x00 ∉ bs →
  Data_view_of_c_str h p = Undefined_behaviour.
Proof.
  intros Hblk Hdrop Hnot.
  assert (Hp : to_bool p = true) by (by destruct p).
  rewrite Data_view_of_c_str_Ok. unfold Data_view_of_c_str_init, strlen.
  rewrite Hp, Hblk.
  assert (find_nul (drop off blk) = None) as ->; [|done].
  destruct Hdrop as [->| ->]; [by apply find_nul_unterminated|].
  clear Hblk. induction bs as [|b bs IH]; csimpl; [done|].
  apply not_elem_of_cons in Hnot as [Hb Hbs].
  destruct (Byte.eqb b x00) eqn:E.
  - apply Byte.byte_dec_bl in E. congruence.
  - by rewrite IH.
Qed.

Lemma Data_view_of_c_str_unterminated_witness :
  block_of {[ 5%nat := [Byte_val x61; Indeterminate] ]} (heap_ptr 5 0) =
    Some ([Byte_val x61; Indeterminate], 0%nat) ∧
  Data_view_of_c_str {[ 5%nat := [Byte_val x61; Indeterminate] ]} (heap_ptr 5 0)
    = Undefined_behaviour.
Proof.
  assert (H1 : block_of {[ 5%nat := [Byte_val x61; Indeterminate] ]} (heap_ptr 5 0)
               = Some ([Byte_val x61; Indeterminate], 0%nat)) by reflexivity.
  assert (H2 : drop 0 [Byte_val x61; Indeterminate] = (Byte_val <$> [x61]) ∨
               drop 0 [Byte_val x61; Indeterminate] =
                 (Byte_val <$> [x61]) ++ Indeterminate :: [])
    by (right; reflexivity).
  assert (H3 : x00 ∉ [x61]).
  { intros H. apply list_elem_of_In in H. simpl in H.
    destruct H as [H|[]]; discriminate H. }
  split; [exact H1|].
  exact (Data_view_of_c_str_unterminated _ (heap_ptr 5 0) _ _ [x61] [] H1 H2 H3).
Defined.

(** X7. The view constructed from a [Data] borrows it: the assertion
    passes, and the view has the address, the size and the format of the
    [Data]; the view of a view is that view. *)
Theorem Data_view_of_Data_borrows (d : Data) :
  Data_instance d →
  Data_view_of_Data d =
    Ok {| view_format_ := format d;
          view_data_ := {| sv_data := bytes d; sv_size := size d |} |} ∧
  (∀ v, d = view_Data v → Data_view_of_Data d = Ok v).
Proof.
  intros Hd. pose proof (Data_instance_bytes_nonnull d Hd) as Hnn.
  assert (Hb : to_bool (bytes d) = true) by (by destruct (bytes d)).
  assert (H : Data_view_of_Data d =
    Ok {| view_format_ := format d;
          view_data_ := {| sv_data := bytes d; sv_size := size d |} |}).
  { unfold Data_view_of_Data. rewrite Data_view_ctor_Ok.
    unfold Data_view_init. by rewrite Hb. }
  split; [done|]. intros v ->. rewrite H. by destruct v as [f [p n]].
Qed.

Lemma Data_view_of_Data_borrows_witness :
  Data_instance (memory_Data custom_memory binary 0 nullptr) ∧
  Data_view_of_Data (memory_Data custom_memory binary 0 nullptr) =
    Ok {| view_format_ := binary;
          view_data_ := {| sv_data := empty_literal; sv_size := 0 |} |}.
Proof.
  assert (H : Data_instance (memory_Data custom_memory binary 0 nullptr))
    by apply instance_memory.
  split; [exact H|].
  exact (proj1 (Data_view_of_Data_borrows _ H)).
Defined.

(** X8. The copy [to_data] makes of an owning [Data] is followed by a
    terminator: [make] writes one after the bytes of a [memory_Data], an
    [empty_Data] shows the static one, and the copy of a string takes the
    terminator of the string along. *)
Theorem to_data_of_owning_Data_is_terminated (h : heap) (d : Data) :
  (∀ v, d ≠ view_Data v) →
  Data_readable h d →
  (∀ f s, d = container_Data f s → terminated h d) →
  ∃ d' h', to_data d h = Ok (d', h') ∧ terminated h' d'.
Proof.
  intros Hnv Hr Hs. unfold terminated in *.
  destruct d as [f s|k f n p|f|v]; simpl in *.
  - destruct Hr as [cs Hcs]. specialize (Hs f s eq_refl).
    eexists _, _. split.
    { unfold mbind, M_bind, string_copy. rewrite Hcs.
      unfold lift. by rewrite container_Data_ctor_Ok. }
    simpl. revert Hcs Hs. unfold load_range, load_char, string_data. simpl.
    destruct (h !! string_buffer s) as [blk|]; simpl; [|done].
    case_decide; [|done]. intros [= <-].
    rewrite lookup_insert_eq. simpl.
    rewrite lookup_take_lt by lia. done.
  - destruct Hr as [Hz|[Hmax [cs Hcs]]]; simpl in *.
    + subst n. by eexists _, _.
    + pose proof (load_range_length _ _ _ _ Hcs) as Hlen.
      destruct (decide (n = 0)) as [->|Hn]; [by eexists _, _|].
      eexists _, _. split.
      { apply (make_nonempty h (mk_string_view p n) f cs); simpl; [lia|done|done]. }
      simpl. unfold load_char. simpl. rewrite lookup_insert_eq. simpl.
      rewrite <- Hlen. by rewrite list_lookup_middle.
  - by eexists _, _.
  - by destruct (Hnv v).
Qed.

Lemma to_data_of_owning_Data_is_terminated_witness :
  (∀ v, container_Data text sample_string ≠ view_Data v) ∧
  Data_readable sample_string_heap (container_Data text sample_string) ∧
  terminated sample_string_heap (container_Data text sample_string) ∧
  ∃ d' h',
    to_data (container_Data text sample_string) sample_string_heap = Ok (d', h') ∧
    terminated h' d'.
Proof.
  assert (H1 : ∀ v, container_Data text sample_string ≠ view_Data v)
    by (intros v H; discriminate H).
  assert (H2 : Data_readable sample_string_heap (container_Data text sample_string))
    by (by eexists).
  assert (H3 : terminated sample_string_heap (container_Data text sample_string))
    by reflexivity.
  split; [exact H1|]. split; [exact H2|]. split; [exact H3|].
  exact (to_data_of_owning_Data_is_terminated sample_string_heap
           (container_Data text sample_string) H1 H2 (λ _ _ _, H3)).
Defined.

(** ** Handles *)

Section Handle_move_properties.
Context {Connection : Type}.

(** X9. Move assignment of a handle to itself leaves every handle as it
    was: the [unique_ptr] is handed back what it gave up, so a valid
    handle stays valid and keeps its connection. *)
Theorem Handle_self_move_assign_keeps_connection
    (σ : gmap nat (Handle Connection)) (a : nat) (h : Handle Connection) :
  σ !! a = Some h →
  ∃ σ', Handle_move_assign σ a a = Some σ' ∧
        σ' = σ ∧
        σ' !! a = Some h ∧
        (Handle_is_valid h = true →
         ∃ h', σ' !! a = Some h' ∧ Handle_is_valid h' = true ∧
               connection_ h' = connection_ h).
Proof.
  intros Ha. exists σ. split_and!; try done.
  - by apply (Handle_move_assign_self σ a h).
  - intros Hv. by exists h.
Qed.

(** X10. Move assignment between two distinct handles overwrites what
    the target held: afterwards the target is what the source was, the
    source holds no connection, every other handle is as before, and so
    a connection found in any handle afterwards was held by a handle
    other than the target before. The connection of the target is
    dropped. *)
Theorem Handle_move_assign_drops_target_connection
    (σ : gmap nat (Handle Connection)) (this rhs : nat)
    (t r : Handle Connection) :
  this ≠ rhs → σ !! this = Some t → σ !! rhs = Some r →
  ∃ σ',
    Handle_move_assign σ this rhs = Some σ' ∧
    σ' !! this = Some r ∧
    (∃ r', σ' !! rhs = Some r' ∧ connection_ r' = None) ∧
    (∀ a, a ≠ this → a ≠ rhs → σ' !! a = σ !! a) ∧
    (∀ a h' c, σ' !! a = Some h' → connection_ h' = Some c →
       ∃ a0 h0, a0 ≠ this ∧ σ !! a0 = Some h0 ∧ connection_ h0 = Some c).
Proof.
  intros Hne Ht Hr.
  exists (<[this := r]> (<[rhs := set_connection_ None r]> σ)).
  split; [by apply (Handle_move_assign_distinct _ _ _ t)|].
  split_and!.
  - apply lookup_insert_eq.
  - exists (set_connection_ None r). split; [|done].
    rewrite lookup_insert_ne by done. apply lookup_insert_eq.
  - intros a H1 H2. by rewrite !lookup_insert_ne.
  - intros a h' c Ha Hc.
    destruct (decide (a = this)) as [->|Hat].
    { rewrite lookup_insert_eq in Ha. injection Ha as <-.
      exists rhs, r. split_and!; [by apply not_eq_sym|done|done]. }
    rewrite lookup_insert_ne in Ha by done.
    destruct (decide (a = rhs)) as [->|Har].
    { rewrite lookup_insert_eq in Ha. injection Ha as <-. done. }
    rewrite lookup_insert_ne in Ha by done. by exists a, h'.
Qed.
End Handle_move_properties.

Lemma Handle_self_move_assign_keeps_connection_witness :
  sample_handles !! 2%nat = Some sample_handle ∧
  Handle_move_assign sample_handles 2 2 = Some sample_handles.
Proof.
  assert (H : sample_handles !! 2%nat = Some sample_handle) by reflexivity.
  split; [exact H|].
  destruct (Handle_self_move_assign_keeps_connection sample_handles 2 sample_handle H)
    as (σ' & Hm & Heq & _).
  rewrite Heq in Hm. exact Hm.
Defined.

Lemma Handle_move_assign_drops_target_connection_witness :
  (2 ≠ 1)%nat ∧
  sample_handles !! 2%nat = Some sample_handle ∧
  sample_handles !! 1%nat = Some Handle_default ∧
  ∃ σ',
    Handle_move_assign sample_handles 2 1 = Some σ' ∧
    σ' !! 2%nat = Some Handle_default ∧
    (∃ r', σ' !! 1%nat = Some r' ∧ connection_ r' = None).
Proof.
  assert (H1 : (2 ≠ 1)%nat) by lia.
  assert (H2 : sample_handles !! 2%nat = Some sample_handle) by reflexivity.
  assert (H3 : sample_handles !! 1%nat = Some Handle_default) by reflexivity.
  split; [exact H1|]. split; [exact H2|]. split; [exact H3|].
  destruct (Handle_move_assign_drops_target_connection sample_handles 2 1
              sample_handle Handle_default H1 H2 H3)
    as (σ' & Hm & Hthis & Hrhs & _).
  exists σ'. split; [exact Hm|]. split; [exact Hthis|exact Hrhs].
Defined.

(** ** String transformations *)

(** X11. After [terminate] the string ends with [c]: [c] is appended
    unless the string ended with it already, so terminating twice is
    terminating once. *)
Theorem terminate_ends_with (str : list byte) (c : byte) :
  last (terminate str c) = Some c ∧
  (last str = Some c → terminate str c = str) ∧
  (last str ≠ Some c → terminate str c = str ++ [c]) ∧
  terminate (terminate str c) c = terminate str c.
Proof.
  assert (Hend : last str = Some c → terminate str c = str).
  { intros Hl. unfold terminate.
    rewrite (bool_decide_eq_false_2 (str = [])) by (intros ->; done).
    by rewrite (bool_decide_eq_true_2 _ Hl). }
  assert (Happ : last str ≠ Some c → terminate str c = str ++ [c]).
  { intros Hl. unfold terminate.
    rewrite (bool_decide_eq_false_2 _ Hl). simpl. by rewrite orb_true_r. }
  assert (Hlast : last (terminate str c) = Some c).
  { destruct (decide (last str = Some c)) as [Hl|Hl].
    - by rewrite Hend.
    - rewrite Happ by done. apply last_snoc. }
  split_and!; try done.
  unfold terminate at 1.
  rewrite (bool_decide_eq_true_2 _ Hlast). simpl. rewrite orb_false_r.
  rewrite bool_decide_eq_false_2; [done|].
  intros Hnil. rewrite Hnil in Hlast. done.
Qed.

Lemma interspersed_cons (d : list byte) (c : byte) (l : list byte) :
  l ≠ [] → interspersed d (c :: l) = c :: d ++ interspersed d l.
Proof. by destruct l. Qed.

Lemma sparsed_string_loop_eq (d input res : list byte) :
  sparsed_string_loop d input res = res ++ interspersed d input.
Proof.
  revert res. induction input as [|c [|c' rest] IH]; intros res.
  - by rewrite app_nil_r.
  - done.
  - change (sparsed_string_loop d (c' :: rest) ((res ++ [c]) ++ d) =
            res ++ c :: d ++ interspersed d (c' :: rest)).
    rewrite IH. by rewrite <- !app_assoc.
Qed.

Lemma interspersed_length (d input : list byte) :
  length (interspersed d input) =
    (length input + (length input - 1) * length d)%nat.
Proof.
  induction input as [|c [|c' rest] IH]; [done|simpl; lia|].
  rewrite interspersed_cons by done.
  simpl in *. rewrite length_app, IH. lia.
Qed.

(** X12. [sparsed_string] returns the characters of the input with the
    delimiter between each two of them, and nothing for an empty input;
    the result is as long as the space the function reserves for it; an
    empty delimiter gives the input back. *)
Theorem sparsed_string_intersperses (input delimiter : list byte) :
  sparsed_string input delimiter = interspersed delimiter input ∧
  length (sparsed_string input delimiter) =
    (length input + (length input - 1) * length delimiter)%nat ∧
  sparsed_string input [] = input ∧
  sparsed_string [] delimiter = [].
Proof.
  assert (H : ∀ d, sparsed_string input d = interspersed d input).
  { intros d. unfold sparsed_string. case_bool_decide as Hi.
    - by rewrite Hi.
    - by rewrite sparsed_string_loop_eq. }
  split_and!.
  - apply H.
  - rewrite H. apply interspersed_length.
  - rewrite H. induction input as [|c [|c' rest] IH]; [done|done|].
    rewrite interspersed_cons by done. simpl. f_equal. apply IH.
    intros d. unfold sparsed_string. case_bool_decide; [done|].
    by rewrite sparsed_string_loop_eq.
  - done.
Qed.

(** *** trim *)

Lemma find_if_le {A} (P : A → bool) (l : list A) : (find_if P l ≤ length l)%nat.
Proof. induction l as [|x l IH]; simpl; [done|]. destruct (P x); lia. Qed.

Lemma find_if_before {A} (P : A → bool) (l : list A) :
  Forall (λ x, P x = false) (take (find_if P l) l).
Proof.
  induction l as [|x l IH]; simpl; [constructor|].
  destruct (P x) eqn:E; simpl; [constructor|]. by constructor.
Qed.

Lemma find_if_found {A} (P : A → bool) (l : list A) :
  (find_if P l < length l)%nat →
  ∃ x, l !! find_if P l = Some x ∧ P x = true.
Proof.
  induction l as [|x l IH]; simpl; [lia|].
  destruct (P x) eqn:E; simpl; [eauto|]. intros H. apply IH. lia.
Qed.

Lemma find_if_le_index {A} (P : A → bool) (l : list A) (i : nat) (x : A) :
  l !! i = Some x → P x = true → (find_if P l ≤ i)%nat.
Proof.
  revert i. induction l as [|y l IH]; intros i Hi Hx; [done|]. simpl.
  destruct (P y) eqn:E; [lia|].
  destruct i as [|i]; simpl in Hi.
  - injection Hi as ->. congruence.
  - specialize (IH i Hi Hx). lia.
Qed.

(** The loop of [std::move] towards the front of a string copies the
    range as it was. *)
Lemma move_loop_slice (n first d_first : nat) (s : list byte) :
  (d_first ≤ first)%nat → (first + n ≤ length s)%nat →
  move_loop n first d_first s =
    take d_first s ++ take n (drop first s) ++ drop (d_first + n) s.
Proof.
  revert first d_first s. induction n as [|n IH]; intros first d s Hd Hlen.
  - simpl. rewrite Nat.add_0_r. by rewrite take_drop.
  - simpl. destruct (s !! first) as [x|] eqn:Hx; cycle 1.
    { apply lookup_ge_None in Hx. lia. }
    rewrite IH by (rewrite ?length_insert; lia).
    rewrite take_insert_lt by lia.
    rewrite (take_S_r s d (default x (s !! d))); cycle 1.
    { destruct (s !! d) eqn:E; [done|]. apply lookup_ge_None in E. lia. }
    rewrite insert_app_r_alt by (rewrite length_take; lia).
    rewrite length_take, Nat.min_l by lia. rewrite Nat.sub_diag. simpl.
    rewrite drop_insert_lt by lia. rewrite drop_insert_lt by lia.
    rewrite <- app_assoc. simpl. f_equal.
    rewrite (drop_S s x first Hx). simpl. do 2 f_equal. f_equal. lia.
Qed.

(** Shrinking with [resize] keeps the front of the string. *)
Lemma resize_shrink (n : nat) (s : list byte) :
  (n ≤ length s)%nat → resize n s = take n s.
Proof.
  intros Hn. unfold resize.
  replace (n - length s)%nat with 0%nat by lia. apply app_nil_r.
Qed.

Section trim_properties.
Variable isspace : byte → bool.

Let is_not_space : byte → bool := λ c, negb (isspace c).

(** What [trim] leaves of a string that holds something else than
    spaces: the characters from the first to the last of them. *)
Lemma trim_slice (str : list byte) :
  (find_if is_not_space str < length str)%nat →
  let tb := find_if is_not_space str in
  let te := (length str - find_if is_not_space (reverse str))%nat in
  (tb < te)%nat ∧ (te ≤ length str)%nat ∧
  trim isspace str = take (te - tb) (drop tb str).
Proof.
  intros Hlt tb te.
  assert (Htb : (tb < length str)%nat) by exact Hlt.
  destruct (find_if_found _ _ Hlt) as (x & Hx & Hpx). fold tb in Hx.
  assert (Hrev : reverse str !! (length str - S tb)%nat = Some x).
  { rewrite reverse_lookup by lia. rewrite <- Hx. f_equal. lia. }
  pose proof (find_if_le_index _ _ _ _ Hrev Hpx) as Hle.
  assert (Hte : (tb < te)%nat) by (unfold te; lia).
  assert (Hte' : (te ≤ length str)%nat) by (unfold te; lia).
  split_and!; [done|done|].
  unfold trim. fold is_not_space. fold tb. fold te.
  rewrite bool_decide_eq_false_2 by (intros ->; simpl in Hlt; lia).
  rewrite (bool_decide_eq_false_2 (tb = length str)) by lia.
  clearbody tb te.
  rewrite move_loop_slice; [|lia..]. simpl.
  rewrite resize_shrink by (rewrite length_app, length_take, !length_drop; lia).
  rewrite take_app_le by (rewrite length_take, length_drop; lia).
  by rewrite take_take, Nat.min_id.
Qed.

(** A string that neither begins nor ends with a space is left alone. *)
Lemma trim_fixed (str : list byte) (x y : byte) :
  head str = Some x → last str = Some y →
  isspace x = false → isspace y = false →
  trim isspace str = str.
Proof.
  intros Hh Hl Hx Hy.
  assert (Hb : find_if is_not_space str = 0%nat).
  { destruct str as [|c str]; [done|]. simpl in *. injection Hh as ->.
    unfold is_not_space. by rewrite Hx. }
  assert (He : find_if is_not_space (reverse str) = 0%nat).
  { rewrite <- head_reverse in Hl.
    destruct (reverse str) as [|c r]; [done|]. simpl in *. injection Hl as ->.
    unfold is_not_space. by rewrite Hy. }
  assert (Hlen : (0 < length str)%nat) by (destruct str; [done|simpl; lia]).
  destruct (trim_slice str) as (_ & _ & ->); [lia|].
  rewrite Hb, He, !Nat.sub_0_r. simpl. apply firstn_all.
Qed.

(** Unless it is empty, what [trim] returns neither begins nor ends
    with a space. *)
Lemma trim_ends (str : list byte) :
  trim isspace str = [] ∨
  ∃ x y, head (trim isspace str) = Some x ∧ last (trim isspace str) = Some y ∧
         isspace x = false ∧ isspace y = false.
Proof.
  pose proof (find_if_le is_not_space str) as Hle.
  destruct (decide (find_if is_not_space str = length str)) as [Hall|Hsome].
  - left. unfold trim. fold is_not_space. case_bool_decide; [done|].
    by rewrite bool_decide_eq_true_2.
  - right. destruct (trim_slice str) as (Hlt & Hte & Ht); [lia|].
    set (tb := find_if is_not_space str) in *.
    set (fe := find_if is_not_space (reverse str)) in *.
    set (te := (length str - fe)%nat) in *.
    pose proof (find_if_le is_not_space (reverse str)) as Hfe.
    rewrite length_reverse in Hfe. fold fe in Hfe.
    destruct (find_if_found is_not_space str) as (x & Hx & Hpx); [lia|].
    destruct (find_if_found is_not_space (reverse str)) as (y & Hy & Hpy).
    { rewrite length_reverse. fold fe. lia. }
    fold tb in Hx. fold fe in Hy. rewrite Ht.
    exists x, y. split_and!.
    + rewrite head_lookup, lookup_take_lt, lookup_drop by lia.
      by rewrite Nat.add_0_r.
    + rewrite last_lookup, length_take, length_drop.
      rewrite lookup_take_lt, lookup_drop by lia.
      rewrite reverse_lookup in Hy by lia.
      rewrite <- Hy. f_equal. unfold te. lia.
    + unfold is_not_space in Hpx. by apply negb_true_iff.
    + unfold is_not_space in Hpy. by apply negb_true_iff.
Qed.

(** X13. [trim] removes the spaces at both ends and nothing else: the
    string is some spaces, then the result, then some spaces, and the
    result, unless it is empty, neither begins nor ends with a space. *)
Theorem trim_removes_outer_spaces (str : list byte) :
  ∃ pre post,
    str = pre ++ trim isspace str ++ post ∧
    Forall (λ c, isspace c = true) pre ∧
    Forall (λ c, isspace c = true) post ∧
    (trim isspace str = [] ∨
     ∃ x y, head (trim isspace str) = Some x ∧ last (trim isspace str) = Some y ∧
            isspace x = false ∧ isspace y = false).
Proof.
  pose proof (find_if_le is_not_space str) as Hle.
  pose proof (find_if_before is_not_space str) as Hpre.
  assert (Hspaces : ∀ l, Forall (λ c, is_not_space c = false) l →
                         Forall (λ c, isspace c = true) l).
  { intros l Hl. eapply Forall_impl; [exact Hl|]. intros c Hc.
    unfold is_not_space in Hc. by apply negb_false_iff. }
  destruct (decide (find_if is_not_space str = length str)) as [Hall|Hsome].
  - rewrite Hall, firstn_all in Hpre.
    assert (Ht : trim isspace str = []).
    { unfold trim. fold is_not_space. case_bool_decide; [done|].
      by rewrite bool_decide_eq_true_2. }
    exists str, []. rewrite Ht, app_nil_r.
    split_and!; [done|by apply Hspaces|constructor|by left].
  - destruct (trim_slice str) as (Hlt & Hte & Ht); [lia|].
    pose proof (trim_ends str) as Hends. rewrite Ht in Hends |- *.
    set (tb := find_if is_not_space str) in *.
    set (fe := find_if is_not_space (reverse str)) in *.
    set (te := (length str - fe)%nat) in *.
    exists (take tb str), (drop te str).
    split_and!; [|by apply Hspaces| |done].
    + rewrite <- (take_drop tb str) at 1. f_equal.
      rewrite <- (take_drop (te - tb) (drop tb str)) at 1. f_equal.
      rewrite drop_drop. f_equal. lia.
    + pose proof (find_if_before is_not_space (reverse str)) as Hpost.
      fold fe in Hpost.
      assert (Hd : drop te str = reverse (take fe (reverse str))).
      { by rewrite take_reverse, reverse_involutive. }
      rewrite Hd. apply Forall_reverse. by apply Hspaces.
Qed.

(** X14. [trim] is idempotent. *)
Theorem trim_idempotent (str : list byte) :
  trim isspace (trim isspace str) = trim isspace str.
Proof.
  destruct (trim_ends str) as [->|(x & y & Hh & Hl & Hx & Hy)].
  - done.
  - by apply (trim_fixed _ x y).
Qed.
End trim_properties.

(** *** split *)

Lemma size_t_add_small (a b : N) :
  a + b < 2 ^ SIZE_WIDTH → size_t_add a b = a + b.
Proof. intros H. unfold size_t_add. by apply N.mod_small. Qed.

Lemma size_t_sub_no_wrap (a b : N) :
  b ≤ a → a < 2 ^ SIZE_WIDTH → size_t_sub a b = a - b.
Proof.
  intros Hb Ha. unfold size_t_sub.
  replace (2 ^ SIZE_WIDTH + a - b) with ((a - b) + 1 * 2 ^ SIZE_WIDTH) by lia.
  rewrite N.Div0.mod_add. apply N.mod_small. lia.
Qed.

Lemma npos_lt : npos < 2 ^ SIZE_WIDTH.
Proof. unfold npos, SIZE_WIDTH. lia. Qed.

Lemma fields_nonempty (seps l : list byte) : fields seps l ≠ [].
Proof.
  destruct l as [|c l]; simpl; [done|].
  case_bool_decide; [done|]. by destruct (fields seps l).
Qed.

Lemma fields_cons_other (seps : list byte) (c : byte) (l : list byte) :
  c ∉ seps →
  ∃ p ps, fields seps l = p :: ps ∧ fields seps (c :: l) = (c :: p) :: ps.
Proof.
  intros Hc. simpl. rewrite bool_decide_eq_false_2 by done.
  destruct (fields seps l) as [|p ps] eqn:E; [by apply fields_nonempty in E|].
  by exists p, ps.
Qed.

Lemma fields_no_separator (seps l : list byte) :
  Forall (λ c, c ∉ seps) l → fields seps l = [l].
Proof.
  induction 1 as [|c l Hc Hl IH]; [done|].
  destruct (fields_cons_other seps c l Hc) as (p & ps & E & ->).
  rewrite IH in E. by injection E as <- <-.
Qed.

Lemma fields_app_separator (seps pre : list byte) (c : byte) (rest : list byte) :
  Forall (λ c, c ∉ seps) pre → c ∈ seps →
  fields seps (pre ++ c :: rest) = pre :: fields seps rest.
Proof.
  intros Hpre Hc. induction Hpre as [|x pre Hx Hpre IH]; simpl.
  - by rewrite bool_decide_eq_true_2.
  - rewrite bool_decide_eq_false_2 by done. by rewrite IH.
Qed.

(** [find_first_of] answers [npos] when there is no separator, and the
    position of the first one otherwise. *)
Lemma find_first_of_from_spec (seps l : list byte) (i : N) :
  (Forall (λ c, c ∉ seps) l ∧ find_first_of_from seps l i = npos) ∨
  (∃ pre c rest,
     l = pre ++ c :: rest ∧ Forall (λ c, c ∉ seps) pre ∧ c ∈ seps ∧
     find_first_of_from seps l i = i + N.of_nat (length pre)).
Proof.
  revert i. induction l as [|c l IH]; intros i; simpl.
  - left. by split.
  - case_bool_decide as Hc.
    + right. exists [], c, l. split_and!; [done|constructor|done|simpl; lia].
    + destruct (IH (i + 1)) as [[Hl ->]|(pre & c' & rest & -> & Hpre & Hc' & ->)].
      * left. split; [by constructor|done].
      * right. exists (c :: pre), c', rest.
        split_and!; [done|by constructor|done|simpl; lia].
Qed.

(** Once [offset] has reached the end, the loop is over. *)
Lemma split_loop_exit (fuel : nat) (input seps : list byte) (pos offset : N)
    (res : list (list byte)) :
  N.of_nat (length input) ≤ offset →
  split_loop fuel input seps pos offset res =
    Some (Ok (if pos =? npos then res else res ++ [[]])).
Proof.
  intros Hle. destruct fuel; simpl;
    by rewrite (proj2 (N.ltb_ge _ _) Hle).
Qed.

(** The loop of [split], from any position inside the input on: it
    appends the fields of what is left. *)
Lemma split_loop_fields (fuel : nat) (input seps : list byte) (pos0 : N)
    (off : nat) (res : list (list byte)) :
  N.of_nat (length input) < npos →
  (off < length input)%nat → (length input - off ≤ fuel)%nat →
  split_loop fuel input seps pos0 (N.of_nat off) res =
    Some (Ok (res ++ fields seps (drop off input))).
Proof.
  intros Hmax. pose proof npos_lt as Hnpos.
  revert pos0 off res. induction fuel as [|fuel IH]; intros pos0 off res Hoff Hfuel;
    [lia|].
  simpl. rewrite (proj2 (N.ltb_lt _ _)) by lia.
  unfold find_first_of. rewrite Nat2N.id.
  pose proof (length_drop input off) as Hlen.
  destruct (find_first_of_from_spec seps (drop off input) (N.of_nat off))
    as [[Hnone ->]|(pre & c & rest & Hl & Hpre & Hc & ->)].
  - rewrite (proj2 (N.leb_le _ _)) by lia.
    rewrite N.min_r by lia.
    rewrite size_t_sub_no_wrap by lia.
    rewrite (size_t_add_small (_ - _) 1) by lia.
    rewrite size_t_add_small by lia.
    rewrite split_loop_exit by lia. rewrite N.eqb_refl.
    rewrite fields_no_separator by done.
    unfold substr. rewrite Nat2N.id.
    rewrite take_ge by (rewrite Hlen; lia). done.
  - rewrite Hl, length_app in Hlen. simpl in Hlen.
    rewrite (proj2 (N.leb_le _ _)) by lia.
    rewrite N.min_l by lia.
    rewrite size_t_sub_no_wrap by lia.
    replace (N.of_nat off + N.of_nat (length pre) - N.of_nat off)
      with (N.of_nat (length pre)) by lia.
    rewrite (size_t_add_small _ 1) by lia.
    rewrite size_t_add_small by lia.
    replace (N.of_nat off + (N.of_nat (length pre) + 1))
      with (N.of_nat (off + length pre + 1)) by lia.
    assert (Hsub : substr input (N.of_nat off) (N.of_nat (length pre)) = pre).
    { unfold substr. rewrite !Nat2N.id, Hl. apply take_app_length. }
    rewrite Hsub.
    assert (Hrest : drop (off + length pre + 1) input = rest).
    { replace (off + length pre + 1)%nat with (off + (length pre + 1))%nat by lia.
      rewrite <- drop_drop, Hl.
      replace (length pre + 1)%nat with (length (pre ++ [c])) by
        (rewrite length_app; simpl; lia).
      by rewrite (cons_middle c pre rest), app_assoc, drop_app_length. }
    rewrite Hl, fields_app_separator by done.
    destruct (decide (rest = [])) as [->|Hne].
    + rewrite split_loop_exit by (simpl in Hlen; lia).
      rewrite (proj2 (N.eqb_neq _ _)) by lia.
      simpl. by rewrite <- app_assoc.
    + assert (0 < length rest)%nat by (destruct rest; [done|simpl; lia]).
      rewrite IH by lia. rewrite Hrest. by rewrite <- app_assoc.
Qed.

(** [split] on a non-empty input of a size a string can have. *)
Lemma split_fields (input seps : list byte) :
  N.of_nat (length input) < npos → input ≠ [] →
  split input seps = Some (Ok (fields seps input)).
Proof.
  intros Hmax Hne. unfold split.
  assert (0 < length input)%nat by (destruct input; [done|simpl; lia]).
  change 0 with (N.of_nat 0).
  by rewrite split_loop_fields by lia.
Qed.

Lemma fields_snoc_separator (seps input : list byte) (c : byte) :
  c ∈ seps → fields seps (input ++ [c]) = fields seps input ++ [[]].
Proof.
  intros Hc. induction input as [|x l IH]; simpl.
  - by rewrite bool_decide_eq_true_2.
  - case_bool_decide; [by rewrite IH|].
    rewrite IH. by destruct (fields seps l) eqn:E; [apply fields_nonempty in E|].
Qed.

(** X15. [split] comes to an end without failing its assertion. It
    returns no part at all for an empty input and the fields between the
    separators otherwise: a separator at the end of the input is followed
    by an empty last part, and a non-empty input without separators is
    the one part. *)
Theorem split_returns_the_fields (input seps : list byte) :
  N.of_nat (length input) < npos →
  split input seps =
    Some (Ok (if bool_decide (input = []) then [] else fields seps input)) ∧
  (∀ front c, input = front ++ [c] → c ∈ seps →
     split input seps = Some (Ok (fields seps front ++ [[]]))) ∧
  (input ≠ [] → Forall (λ c, c ∉ seps) input →
   split input seps = Some (Ok [input])).
Proof.
  intros Hmax.
  assert (Hsplit : input ≠ [] → split input seps = Some (Ok (fields seps input))).
  { intros Hne. unfold split.
    assert (0 < length input)%nat by (destruct input; [done|simpl; lia]).
    change 0 with (N.of_nat 0).
    by rewrite split_loop_fields by lia. }
  split_and!.
  - case_bool_decide as Hi; [by subst|]. by apply Hsplit.
  - intros front c -> Hc. rewrite Hsplit by (by destruct front).
    by rewrite fields_snoc_separator.
  - intros Hne Hnone. rewrite Hsplit by done. by rewrite fields_no_separator.
Qed.

Lemma split_returns_the_fields_witness :
  N.of_nat (length sample_line) < npos ∧
  split sample_line [x2c] = Some (Ok [[x61]; [x62; x63]; []]).
Proof.
  assert (H : N.of_nat (length sample_line) < npos) by reflexivity.
  split; [exact H|].
  exact (proj1 (split_returns_the_fields sample_line [x2c] H)).
Defined.

Lemma fields_parts (seps input : list byte) :
  length (fields seps input) = S (length (filter (λ c, c ∈ seps) input)) ∧
  Forall (Forall (λ c, c ∉ seps)) (fields seps input) ∧
  concat (fields seps input) = filter (λ c, c ∉ seps) input.
Proof.
  induction input as [|c l (IHlen & IHall & IHcat)]; simpl.
  - split_and!; [done|by repeat constructor|done].
  - case_bool_decide as Hc.
    + rewrite filter_cons_True by done.
      rewrite (filter_cons_False (λ c, c ∉ seps)) by (by intros H; apply H).
      simpl. split_and!; [by rewrite IHlen|by constructor|done].
    + rewrite filter_cons_False by done.
      rewrite (filter_cons_True (λ c, c ∉ seps)) by done.
      destruct (fields seps l) as [|p ps] eqn:E; [by apply fields_nonempty in E|].
      simpl in *. apply Forall_cons in IHall as [Hp Hps].
      split_and!; [done|by repeat constructor|by rewrite IHcat].
Qed.

(** X16. On a non-empty input [split] returns one part more than the
    input has separator characters; no part holds a separator, and the
    parts put together are the input without its separators. *)
Theorem split_parts (input seps : list byte) :
  N.of_nat (length input) < npos → input ≠ [] →
  ∃ parts,
    split input seps = Some (Ok parts) ∧
    length parts = S (length (filter (λ c, c ∈ seps) input)) ∧
    Forall (Forall (λ c, c ∉ seps)) parts ∧
    concat parts = filter (λ c, c ∉ seps) input.
Proof.
  intros Hmax Hne. exists (fields seps input).
  split; [by apply split_fields|]. apply fields_parts.
Qed.

Lemma split_parts_witness :
  N.of_nat (length sample_line) < npos ∧ sample_line ≠ [] ∧
  ∃ parts,
    split sample_line [x2c] = Some (Ok parts) ∧
    length parts = 3%nat ∧
    concat parts = [x61; x62; x63].
Proof.
  assert (H1 : N.of_nat (length sample_line) < npos) by reflexivity.
  assert (H2 : sample_line ≠ []) by discriminate.
  split; [exact H1|]. split; [exact H2|].
  destruct (split_parts sample_line [x2c] H1 H2) as (parts & Hs & Hl & _ & Hc).
  exists parts. split; [exact Hs|]. split; [exact Hl|exact Hc].
Defined.

Lemma join_fields (c : byte) (input : list byte) :
  join c (fields [c] input) = input.
Proof.
  induction input as [|x l IH]; [done|]. simpl.
  destruct (fields [c] l) as [|p ps] eqn:E; [by apply fields_nonempty in E|].
  case_bool_decide as Hx.
  - apply list_elem_of_singleton in Hx as ->. simpl in *. by rewrite IH.
  - destruct ps; simpl in *; by rewrite <- IH.
Qed.

(** X17. With a single separator character, joining the parts that
    [split] returns with that character gives the input back. *)
Theorem split_then_join (input : list byte) (c : byte) :
  N.of_nat (length input) < npos →
  ∃ parts, split input [c] = Some (Ok parts) ∧ join c parts = input.
Proof.
  intros Hmax. destruct (decide (input = [])) as [->|Hne].
  - by exists [].
  - exists (fields [c] input). split; [by apply split_fields|].
    apply join_fields.
Qed.

Lemma split_then_join_witness :
  N.of_nat (length sample_line) < npos ∧
  ∃ parts, split sample_line [x2c] = Some (Ok parts) ∧
           join x2c parts = sample_line.
Proof.
  assert (H : N.of_nat (length sample_line) < npos) by reflexivity.
  split; [exact H|].
  exact (split_then_join sample_line x2c H).
Defined.

Lemma fields_interspersed (c : byte) (input : list byte) :
  c ∉ input → input ≠ [] →
  fields [c] (interspersed [c] input) = (λ x, [x]) <$> input.
Proof.
  induction input as [|x [|y rest] IH]; intros Hc Hne; [done| |].
  - apply not_elem_of_cons in Hc as [Hx _]. simpl.
    rewrite bool_decide_eq_false_2; [done|].
    intros H%list_elem_of_singleton. congruence.
  - apply not_elem_of_cons in Hc as [Hx Hc].
    rewrite interspersed_cons by done.
    change (fields [c] (x :: c :: interspersed [c] (y :: rest)) =
            [x] :: ((λ x, [x]) <$> (y :: rest))).
    rewrite <- IH by done.
    change (fields [c] (x :: c :: ?l)) with
      (if bool_decide (x ∈ [c]) then [] :: fields [c] (c :: l)
       else match fields [c] (c :: l) with
            | p :: ps => (x :: p) :: ps
            | [] => [[x]]
            end).
    rewrite bool_decide_eq_false_2; cycle 1.
    { intros H%list_elem_of_singleton. congruence. }
    simpl. rewrite bool_decide_eq_true_2 by apply list_elem_of_singleton, eq_refl.
    done.
Qed.

(** X18. [split] undoes [sparsed_string]: when the delimiter is one
    character that the input does not hold, splitting the sparsed string
    at it gives the characters of the input, one per part. *)
Theorem split_of_sparsed_string (input : list byte) (c : byte) :
  c ∉ input →
  N.of_nat (length (sparsed_string input [c])) < npos →
  split (sparsed_string input [c]) [c] = Some (Ok ((λ x, [x]) <$> input)).
Proof.
  intros Hc Hmax. destruct (decide (input = [])) as [->|Hne]; [done|].
  revert Hmax. unfold sparsed_string.
  rewrite bool_decide_eq_false_2 by done.
  rewrite sparsed_string_loop_eq. simpl. intros Hmax.
  rewrite split_fields; [|done|by destruct input as [|? [|? ?]]].
  by rewrite fields_interspersed.
Qed.

Lemma split_of_sparsed_string_witness :
  (x2c ∉ [x61; x62; x63]) ∧
  N.of_nat (length (sparsed_string [x61; x62; x63] [x2c])) < npos ∧
  split (sparsed_string [x61; x62; x63] [x2c]) [x2c] =
    Some (Ok [[x61]; [x62]; [x63]]).
Proof.
  assert (H1 : x2c ∉ [x61; x62; x63]).
  { intros H. apply list_elem_of_In in H. simpl in H.
    destruct H as [H|[H|[H|[]]]]; discriminate H. }
  assert (H2 : N.of_nat (length (sparsed_string [x61; x62; x63] [x2c])) < npos)
    by reflexivity.
  split; [exact H1|]. split; [exact H2|].
  exact (split_of_sparsed_string [x61; x62; x63] x2c H1 H2).
Defined.
